(** * Classical factorization suite and benchmark harness

    A shallow embedding of [classical_factorization.py] and of the result
    model and runner of [comparison.py], with the properties the design
    document states about them.

    Python integers are unbounded, so they are [Z]; [%] and [//] with the
    sign conventions of Python are [Z.modulo] and [Z.div] (remainder with the
    sign of the divisor, floor quotient).  Lists are [list Z], [append] adds
    at the end.  A [while] loop is a fuelled iteration that reports when the
    fuel ran out; each function that uses one is shown to have enough.  The
    recursion of [pollard_rho_factorize] is bounded by a nesting depth, which
    it can exhaust. *)

From Equations Require Import Equations.
From Stdlib Require Import ZArith Zdivisibility Zpow_facts List Lia Bool String QArith.
From Stdlib Require Import Sorting.Sorted Sorting.Permutation Sorting.Mergesort.
From Stdlib Require Import Orders.
Import ListNotations.

Local Open Scope Z_scope.

(** ** Constants of [classical_factorization.py] *)

Definition SMALL_PRIME_LIMIT : Z := 1000.
Definition PRIME_THRESHOLD : Z := 1000000.

(** ** Outcomes of a Python call

    A call returns a value, raises an exception (an instance of [Exception]:
    [ValueError] from [random.randint] or [math.sqrt], an arithmetic error,
    a [RecursionError]), or, in the model only, runs out of fuel. *)

Definition exn : Type := string.

Inductive res (A : Type) : Type :=
| Ret (a : A)
| Exn (e : exn)
| Fuel.
Arguments Ret {A} a.
Arguments Exn {A} e.
Arguments Fuel {A}.

Definition res_bind {A B} (m : res A) (k : A -> res B) : res B :=
  match m with
  | Ret a => k a
  | Exn e => Exn e
  | Fuel => Fuel
  end.

Notation "x <- m ;; k" := (res_bind m (fun x => k))
  (at level 61, m at next level, right associativity).
Notation "' p <- m ;; k" := (res_bind m (fun p => k))
  (at level 61, p pattern, m at next level, right associativity).

(** [try: body except Exception as e: handler e] *)
Definition try_except {A} (body : res A) (handler : exn -> res A) : res A :=
  match body with
  | Exn e => handler e
  | r => r
  end.

(** ** Loops and ranges *)

(** [while cond: s = body(s)], at most [fuel] tests of the condition. *)
Fixpoint while {S : Type} (fuel : nat) (cond : S -> bool)
    (body : S -> res S) (s : S) : res S :=
  match fuel with
  | O => Fuel
  | Datatypes.S k =>
      if cond s
      then match body s with
           | Ret s' => while k cond body s'
           | Exn e => Exn e
           | Fuel => Fuel
           end
      else Ret s
  end.

(** [range(start, start + step * count, step)] as a list. *)
Fixpoint range_from (count : nat) (start step : Z) : list Z :=
  match count with
  | O => []
  | Datatypes.S k => start :: range_from k (start + step) step
  end.

(** [range(start, stop, step)] for a positive [step]: the number of elements
    is [ceil((stop - start) / step)], none when [stop <= start]. *)
Definition range_step (start stop step : Z) : list Z :=
  range_from (Z.to_nat ((stop - start + step - 1) / step)) start step.

(** [range(start, stop)] *)
Definition range (start stop : Z) : list Z := range_step start stop 1.

(** [product = 1; for f in l: product *= f] *)
Definition product (l : list Z) : Z := fold_left Z.mul l 1.

(** ** [gcd]: the Euclidean loop

    [while b: a, b = b, a % b] then [return a].  The loop ends for all
    integers since [|a % b| < |b|]. *)

Equations? gcd (a b : Z) : Z by wf (Z.abs_nat b) lt :=
  gcd a b with Z.eq_dec b 0 => {
    | left _ := a;
    | right _ := gcd b (a mod b) }.
Proof.
  pose proof (Z.mod_bound_or a b n). lia.
Qed.

(** ** [trial_division]

    The three loops of the function run on the pair or triple of variables
    they assign.  None of them can take more than [n] rounds for the [n >= 2]
    they are entered with. *)

Definition trial_division (n : Z) : res (list Z) :=
  if n <? 2 then Ret []
  else
    let fuel := S (Z.to_nat n) in
    let factors := [] in
    (* Check for factor 2 *)
    '(n, factors) <-
      while fuel (fun '(n, _) => n mod 2 =? 0)
        (fun '(n, factors) => Ret (n / 2, factors ++ [2]))
        (n, factors) ;;
    (* Check odd factors up to sqrt(n) *)
    let i := 3 in
    '(n, i, factors) <-
      while fuel (fun '(n, i, _) => i * i <=? n)
        (fun '(n, i, factors) =>
           '(n, factors) <-
             while fuel (fun '(n, _) => n mod i =? 0)
               (fun '(n, factors) => Ret (n / i, factors ++ [i]))
               (n, factors) ;;
           Ret (n, i + 2, factors))
        (n, i, factors) ;;
    (* If n is a prime greater than 2 *)
    Ret (if 2 <? n then factors ++ [n] else factors).

(** ** The pseudorandom source

    [random] is an ambient stream of raw draws; [rng] is the stream and how
    far it has been read.  [random.randint(a, b)] raises [ValueError] on an
    empty range and otherwise maps the next draw into [a..b]; every value of
    the range is the image of some draw. *)

Record rng : Type := { stream : nat -> Z; cursor : nat }.

Definition randint (a b : Z) (g : rng) : res (Z * rng) :=
  if b <? a then Exn "empty range in randrange"%string
  else Ret (a + stream g (cursor g) mod (b - a + 1),
            {| stream := stream g; cursor := S (cursor g) |}).

(** ** [pollard_rho]

    The loop state is [(x, y, d, iteration)]. *)

Definition pollard_rho (n max_iterations : Z) (g : rng) : res (option Z * rng) :=
  if n mod 2 =? 0 then Ret (Some 2, g)
  else
    '(x, g) <- randint 2 (n - 1) g ;;
    let y := x in
    '(c, g) <- randint 1 (n - 1) g ;;
    let d := 1 in
    let iteration := 0 in
    '(x, y, d, iteration) <-
      while (S (Z.to_nat max_iterations))
        (fun '(_, _, d, iteration) => (d =? 1) && (iteration <? max_iterations))
        (fun '(x, y, d, iteration) =>
           let x := (x * x + c) mod n in
           let y := (y * y + c) mod n in
           let y := (y * y + c) mod n in
           let d := gcd (Z.abs (x - y)) n in
           Ret (x, y, d, iteration + 1))
        (x, y, d, iteration) ;;
    if negb (d =? n) then Ret (Some d, g) else Ret (None, g).

(** [int(n ** 0.5)]: the float square root truncated.  The code uses it only
    in [min(int(n ** 0.5) + 1, SMALL_PRIME_LIMIT)]: below [10^6] the double,
    truncated, is the integer square root; from [10^6] on both are at least
    999, so that the minimum is [SMALL_PRIME_LIMIT] for either.  An integer
    too large for a double (from [2^1024] on) makes [n ** 0.5] raise
    [OverflowError], which this function does not have: what is stated of a
    call on an arbitrary [n] is stated for [n < 2^1023]. *)
Definition int_sqrt (n : Z) : Z := Z.sqrt n.

(** [sorted(l)] on integers, as a straight insertion sort. *)
Fixpoint insert_sorted (x : Z) (l : list Z) : list Z :=
  match l with
  | [] => [x]
  | y :: l' => if x <=? y then x :: l else y :: insert_sorted x l'
  end.

Definition sorted (l : list Z) : list Z := fold_right insert_sorted [] l.

(** ** [pollard_rho_factorize]

    A recursive function; [depth] bounds the nesting of the calls, and the
    call that would exceed it reports [Fuel]: that is where CPython raises
    [RecursionError]. *)

Fixpoint pollard_rho_factorize (depth : nat) (n : Z) (g : rng)
  : res (list Z * rng) :=
  match depth with
  | O => Fuel
  | S depth' =>
      if n <? 2 then Ret ([], g)
      else if n =? 2 then Ret ([2], g)
      else if forallb (fun i => negb (n mod i =? 0))
                (range 2 (Z.min (int_sqrt n + 1) SMALL_PRIME_LIMIT))
              && (n <? PRIME_THRESHOLD)
      then Ret ([n], g)
      else
        let factors := [] in
        '(factor, g) <- pollard_rho n 100000 g ;;
        match factor with
        | None =>
            if n <? 10000 then l <- trial_division n ;; Ret (l, g)
            else Ret ([n], g)
        | Some factor =>
            if factor =? n then
              if n <? 10000 then l <- trial_division n ;; Ret (l, g)
              else Ret ([n], g)
            else
              '(l1, g) <- pollard_rho_factorize depth' factor g ;;
              let factors := factors ++ l1 in
              '(l2, g) <- pollard_rho_factorize depth' (n / factor) g ;;
              let factors := factors ++ l2 in
              Ret (sorted factors, g)
        end
  end.

(** ** [fermat_factorization] *)

(** [math.ceil(math.sqrt(n))]; [math.sqrt] raises [ValueError] below zero.
    The root is the exact one.  The double root has the same ceiling for
    [n < 2^52], where an integer that is not a square has its root further
    from every integer than half a unit in the last place; beyond, the double
    can fall on either side of the root (at [2^52 + 1] it is [2^26]).  What
    depends on the value of the root is stated for [n < 2^52]. *)
Definition math_ceil_sqrt (n : Z) : res Z :=
  if n <? 0 then Exn "math domain error"%string
  else let s := Z.sqrt n in Ret (if s * s =? n then s else s + 1).

(** [int(math.sqrt(n))], with the exact root.  The code tests
    [b * b == b_sq] on integers, and the double root of a square [b * b] is
    [b] itself for [b < 2^53], which covers every square the loop meets when
    [n < 2^52]. *)
Definition math_int_sqrt (n : Z) : res Z :=
  if n <? 0 then Exn "math domain error"%string else Ret (Z.sqrt n).

(** The loop state is [(a, b_sq, iteration, returned)]: the [return] inside
    the loop fills [returned], which ends the loop. *)
Definition fermat_factorization (n max_iterations : Z) : res (option (Z * Z)) :=
  if n mod 2 =? 0 then Ret (Some (2, n / 2))
  else
    a <- math_ceil_sqrt n ;;
    let b_sq := a * a - n in
    let iteration := 0 in
    '(_, _, _, returned) <-
      while (S (Z.to_nat max_iterations))
        (fun '(_, _, iteration, returned) =>
           match returned with
           | Some _ => false
           | None => iteration <? max_iterations
           end)
        (fun '(a, b_sq, iteration, _) =>
           b <- math_int_sqrt b_sq ;;
           if b * b =? b_sq then Ret (a, b_sq, iteration, Some (a - b, a + b))
           else
             let a := a + 1 in
             let b_sq := a * a - n in
             Ret (a, b_sq, iteration + 1, None))
        (a, b_sq, iteration, None) ;;
    Ret returned.

(** ** [is_prime_simple] *)

Definition is_prime_simple (n : Z) : bool :=
  if n <? 2 then false
  else if n =? 2 then true
  else if n mod 2 =? 0 then false
  else
    if existsb (fun i => n mod i =? 0)
         (range_step 3 (Z.min (int_sqrt n + 1) SMALL_PRIME_LIMIT) 2)
    then false
    else true.

(** ** [comparison.py]: results, the runner and the summary table

    Times are readings of [time.time()] in seconds, modelled as rationals. *)

Record FactorizationResult : Type := {
  number : Z;
  algorithm : string;
  factors : list Z;
  time_taken : Q;
  success : bool
}.

(** [FactorizationResult.__init__]: [self.factors = factors if factors else []] *)
Definition new_result (number : Z) (algorithm : string)
    (factors : option (list Z)) (time_taken : Q) (success : bool)
  : FactorizationResult :=
  {| number := number;
     algorithm := algorithm;
     factors := match factors with Some l => l | None => [] end;
     time_taken := time_taken;
     success := success |}.

Definition verify_factors (self : FactorizationResult) : bool :=
  match factors self with
  | [] => false
  | _ => product (factors self) =? number self
  end.

(** [factors and len(factors) > 0] *)
Definition nonempty_result (factors : option (list Z)) : bool :=
  match factors with
  | Some l =>
      match l with
      | [] => false
      | _ :: _ => 0 <? Z.of_nat (List.length l)
      end
  | None => false
  end.

(** [benchmark_algorithm]: [start_time] and [end_time] are the readings of
    the clock before the call and after it (taken in the [try] body or in the
    handler); the second component is what the call printed. *)
Definition benchmark_algorithm (algorithm_func : Z -> res (option (list Z)))
    (number : Z) (algorithm_name : string) (start_time end_time : Q)
  : res (FactorizationResult * list string) :=
  try_except
    (factors <- algorithm_func number ;;
     let elapsed_time := (end_time - start_time)%Q in
     if nonempty_result factors
     then Ret (new_result number algorithm_name factors elapsed_time true, [])
     else Ret (new_result number algorithm_name None elapsed_time false, []))
    (fun e =>
       let elapsed_time := (end_time - start_time)%Q in
       Ret (new_result number algorithm_name None elapsed_time false,
            [("Error in " ++ algorithm_name ++ ": " ++ e)%string])).

(** The algorithms as [compare_algorithms] hands them to the runner. *)
Definition trial_division_algorithm (n : Z) : res (option (list Z)) :=
  l <- trial_division n ;; Ret (Some l).

Definition pollard_rho_algorithm (depth : nat) (g : rng) (n : Z)
  : res (option (list Z)) :=
  '(l, _) <- pollard_rho_factorize depth n g ;; Ret (Some l).

Definition fermat_factorization_wrapper (n : Z) : res (option (list Z)) :=
  result <- fermat_factorization n 100000 ;;
  match result with
  | Some (p, q) => Ret (Some [p; q])
  | None => Ret None
  end.

(** A [number_results] dict, in insertion order. *)
Definition results_dict : Type := list (string * FactorizationResult).

Fixpoint dict_get (key : string) (d : results_dict) : option FactorizationResult :=
  match d with
  | [] => None
  | (k, v) :: d' => if String.eqb k key then Some v else dict_get key d'
  end.

(** The speedup column of [print_comparison_summary]. *)
Inductive speedup_cell : Type :=
| Speedup (ratio : Q)
| NotApplicable.

(** [baseline_time.time_taken if baseline_time and baseline_time.success else None] *)
Definition baseline_of (number_results : results_dict) : option Q :=
  match dict_get "trial_division"%string number_results with
  | Some baseline_time =>
      if success baseline_time then Some (time_taken baseline_time) else None
  | None => None
  end.

(** Truth value of [baseline]: [None] and [0.0] are false. *)
Definition truthy_time (baseline : option Q) : bool :=
  match baseline with
  | Some t => negb (Qeq_bool t 0)
  | None => false
  end.

Definition speedup_of (baseline : option Q) (result : FactorizationResult)
  : speedup_cell :=
  match baseline with
  | Some b =>
      if truthy_time baseline && success result
         && negb (Qle_bool (time_taken result) 0)
      then Speedup (b / time_taken result)%Q
      else NotApplicable
  | None => NotApplicable
  end.

(** One row per entry of the dict: name, success, time, speedup. *)
Definition summary_rows (number_results : results_dict)
  : list (string * bool * Q * speedup_cell) :=
  let baseline := baseline_of number_results in
  map (fun '(algo_name, result) =>
         (algo_name, success result, time_taken result,
          speedup_of baseline result))
      number_results.

(** ** Invariants of the loops of [trial_division]

    [n0] is the argument, [n], [i] and [fs] the current values of [n], [i]
    and [factors]. *)

Definition no_divisor_below (i n : Z) : Prop :=
  forall d : Z, 1 < d < i -> ~ (d | n).

(** While the factor 2 is taken out. *)
Definition td_inv_two (n0 n : Z) (fs : list Z) : Prop :=
  1 <= n <= n0 /\ n * product fs = n0 /\ Forall (fun f => f = 2) fs.

(** While odd divisors are probed: everything found so far is prime, in
    order and at most [b], and what is left has no divisor below [i]. *)
Definition td_inv_odd (n0 b i n : Z) (fs : list Z) : Prop :=
  1 <= n <= n0 /\ Z.odd n = true /\ 3 <= i /\ Z.odd i = true /\
  n * product fs = n0 /\
  Forall Z.prime fs /\ Sorted Z.le fs /\ Forall (fun f => f <= b) fs /\
  no_divisor_below i n.

(** ** The value [pollard_rho] ends its loop with

    [rho_fast rounds n c x y] is the [d] the loop of [pollard_rho] stops
    with when it is left [rounds] rounds, written with the library gcd: the
    first [d] other than 1, or 1 when the rounds are used up. *)

Fixpoint rho_fast (rounds : nat) (n c x y : Z) : Z :=
  match rounds with
  | O => 1
  | S r =>
      let x := (x * x + c) mod n in
      let y := (y * y + c) mod n in
      let y := (y * y + c) mod n in
      let d := Z.gcd (Z.abs (x - y)) n in
      if d =? 1 then rho_fast r n c x y else d
  end.

(** A source whose raw draws are all [raw]. *)
Definition const_rng (raw : Z) (cur : nat) : rng :=
  {| stream := fun _ => raw; cursor := cur |}.

(** A prime [n] with [n - 1 = 8 * 200807], where [200807 = 2 * 100403 + 1]
    and 100403 are prime too. *)
Definition stuck_number : Z := 1606457.

(** The raw draw for which [randint(2, n - 1)] is [803231], that is
    [2 + 1/2] modulo [n], and [randint(1, n - 1)] is [n - 2], for
    [n = stuck_number]. *)
Definition stuck_draw : Z := 1290355259334.

(** ** Invariant of the loop of [fermat_factorization]

    [a0] is the first [a] tried.  No earlier [a] made [a^2 - n] a square,
    and a filled [returned] holds [(a - b, a + b)] with [b^2 = a^2 - n]. *)

Definition is_square (m : Z) : Prop := exists b : Z, b * b = m.

Definition fermat_inv (n a0 : Z) (s : Z * Z * Z * option (Z * Z)) : Prop :=
  let '(a, b_sq, _, returned) := s in
  a0 <= a /\ b_sq = a * a - n /\
  (forall a' : Z, a0 <= a' < a -> ~ is_square (a' * a' - n)) /\
  match returned with
  | Some (p, q) =>
      exists b : Z, 0 <= b /\ b * b = a * a - n /\ p = a - b /\ q = a + b
  | None => True
  end.

(** ** Sample runs for the harness *)

(** A wrapped function that answers [[2, 2]] whatever it is asked. *)
Definition wrong_algorithm (n : Z) : res (option (list Z)) := Ret (Some [2; 2]).

(** A [number_results] dict in which trial division succeeded with an
    elapsed time of exactly 0 and Pollard's rho succeeded after 1 second. *)
Definition zero_baseline_results : results_dict :=
  [("trial_division"%string,
    new_result 15 "Trial Division"%string (Some [3; 5]) 0%Q true);
   ("pollard_rho"%string,
    new_result 15 "Pollard's Rho"%string (Some [3; 5]) 1%Q true)].

(** ** [shors_algorithm.py]: the classical helpers

    [gcd] there is the same loop as in [classical_factorization.py]. *)

(** [for x in items: s = body(x, s)] *)
Fixpoint for_each {A S : Type} (items : list A) (body : A -> S -> res S)
    (s : S) : res S :=
  match items with
  | [] => Ret s
  | x :: rest =>
      match body x s with
      | Ret s' => for_each rest body s'
      | Exn e => Exn e
      | Fuel => Fuel
      end
  end.

(** [for x in items: ...] where the body either goes on with a new state
    ([inl]) or leaves the loop with a value ([inr]), by [break] or by
    [return]. *)
Fixpoint for_loop {A S R : Type} (items : list A)
    (body : A -> S -> res (S + R)) (s : S) : res (S + R) :=
  match items with
  | [] => Ret (inl s)
  | x :: rest =>
      match body x s with
      | Ret (inl s') => for_loop rest body s'
      | Ret (inr v) => Ret (inr v)
      | Exn e => Exn e
      | Fuel => Fuel
      end
  end.

(** [l[i]]: a negative index counts from the end, and an index out of range
    raises [IndexError]. *)
Definition list_get {A : Type} (l : list A) (i : Z) : res A :=
  let len := Z.of_nat (List.length l) in
  let j := if i <? 0 then i + len else i in
  if (j <? 0) || (len <=? j) then Exn "list index out of range"%string
  else
    match nth_error l (Z.to_nat j) with
    | Some x => Ret x
    | None => Exn "list index out of range"%string
    end.

(** [a % b], which raises [ZeroDivisionError] for [b == 0]. *)
Definition py_mod (a b : Z) : res Z :=
  if b =? 0 then Exn "integer modulo by zero"%string else Ret (a mod b).

(** The loop state is [(numerator, denominator, cf)]; [break] leaves the
    loop with [cf]. *)
Definition continued_fraction_expansion (numerator denominator max_terms : Z)
  : res (list Z) :=
  let cf := [] in
  r <- for_loop (range 0 max_terms)
         (fun _ '(numerator, denominator, cf) =>
            if denominator =? 0 then Ret (inr cf)
            else
              let q := numerator / denominator in
              let cf := cf ++ [q] in
              Ret (inl (denominator, numerator - q * denominator, cf)))
         (numerator, denominator, cf) ;;
  match r with
  | inl (_, _, cf) => Ret cf
  | inr cf => Ret cf
  end.

Definition convergents_from_cf (cf : list Z) : res (list (Z * Z)) :=
  let convergents := [] in
  for_each (range 0 (Z.of_nat (List.length cf)))
    (fun i convergents =>
       if i =? 0 then
         c0 <- list_get cf 0 ;;
         Ret (convergents ++ [(c0, 1)])
       else if i =? 1 then
         c1 <- list_get cf 1 ;;
         c0 <- list_get cf 0 ;;
         Ret (convergents ++ [(c1 * c0 + 1, c1)])
       else
         ci <- list_get cf i ;;
         prev1 <- list_get convergents (i - 1) ;;
         prev2 <- list_get convergents (i - 2) ;;
         let num := ci * fst prev1 + fst prev2 in
         let den := ci * snd prev1 + snd prev2 in
         Ret (convergents ++ [(num, den)]))
    convergents.

(** The loop state is [power]; the [return r] inside the loop leaves it. *)
Definition classical_period_finding (a N max_period : Z) : res (option Z) :=
  if negb (gcd a N =? 1) then Ret None
  else
    power <- py_mod a N ;;
    r <- for_loop (range 1 (Z.min max_period N))
           (fun r power =>
              if power =? 1 then Ret (inr r)
              else
                power <- py_mod (power * a) N ;;
                Ret (inl power))
           power ;;
    match r with
    | inr r => Ret (Some r)
    | inl _ => Ret None
    end.

(** ** Convergents as a matrix product

    [(h1, h0, k1, k0)] holds the numerators and denominators of the last two
    convergents; before the first coefficient it is [(1, 0, 0, 1)]. *)

Definition conv_step (st : Z * Z * Z * Z) (a : Z) : Z * Z * Z * Z :=
  let '(h1, h0, k1, k0) := st in (a * h1 + h0, h1, a * k1 + k0, k1).

Definition conv_state (cf : list Z) : Z * Z * Z * Z :=
  fold_left conv_step cf (1, 0, 0, 1).

(** ** [is_power] and [shors_algorithm_simple]

    [is_power] computes with floats: [int(math.log2(n))] and
    [round(n ** (1/b))].  Their values are left open: [float_log2 n] is the
    first for [n > 0] ([math.log2] raises [ValueError] otherwise), and
    [float_root n b] the second, which raises [OverflowError] when [n] is
    too large for a float.  The test [a ** b == n] is on exact integers. *)

Section Floats.

Variable float_log2 : Z -> Z.
Variable float_root : Z -> Z -> res Z.

Definition is_power (n : Z) : res (option (Z * Z)) :=
  if n <=? 0 then Exn "math domain error"%string
  else
    r <- for_loop (range 2 (float_log2 n + 1))
           (fun b (_ : unit) =>
              a <- float_root n b ;;
              if a ^ b =? n then Ret (inr (a, b)) else Ret (inl tt))
           tt ;;
    match r with
    | inr (a, b) => Ret (Some (a, b))
    | inl _ => Ret None
    end.

(** One round of the loop of [shors_algorithm_simple]: [inr] is a [return]
    from inside the loop, [inl] goes on to the next round.  [gen] is the
    random source ([g] is the gcd, as in the code). *)
Definition shors_simple_attempt (N : Z) (gen : rng) : res (rng + list Z * rng) :=
  '(a, gen) <- randint 2 (N - 1) gen ;;
  let g := gcd a N in
  if g >? 1 then Ret (inr ([g; N / g], gen))
  else
    r <- classical_period_finding a N 1000 ;;
    match r with
    | Some r =>
        if negb (r =? 0) && (r mod 2 =? 0) then
          let x := a ^ (r / 2) mod N in
          if negb (x =? N - 1) then
            let factor1 := gcd (x + 1) N in
            let factor2 := gcd (x - 1) N in
            if (factor1 >? 1) && (factor1 <? N) then
              Ret (inr ([factor1; N / factor1], gen))
            else if (factor2 >? 1) && (factor2 <? N) then
              Ret (inr ([factor2; N / factor2], gen))
            else Ret (inl gen)
          else Ret (inl gen)
        else Ret (inl gen)
    | None => Ret (inl gen)
    end.

Definition shors_algorithm_simple (N : Z) (gen : rng)
  : res (option (list Z) * rng) :=
  if N <? 2 then Ret (None, gen)
  else if N mod 2 =? 0 then Ret (Some [2; N / 2], gen)
  else
    power_result <- is_power N ;;
    match power_result with
    | Some (base, exp) => Ret (Some (repeat base (Z.to_nat exp)), gen)
    | None =>
        r <- for_loop (range 0 10) (fun _ gen => shors_simple_attempt N gen) gen ;;
        match r with
        | inr (factors, gen) => Ret (Some factors, gen)
        | inl gen => Ret (None, gen)
        end
    end.

End Floats.

(** The values the two float expressions have when the rounding error is
    small: the integer logarithm, and the integer nearest to the real
    root. *)
Definition exact_log2 (n : Z) : Z := Z.log2 n.

Fixpoint root_floor (k : nat) (n b : Z) : Z :=
  match k with
  | O => 0
  | Datatypes.S k' =>
      if Z.of_nat k ^ b <=? n then Z.of_nat k else root_floor k' n b
  end.

Definition exact_root (n b : Z) : res Z :=
  let a := root_floor (Z.to_nat n) n b in
  if (2 * a + 1) ^ b <=? 2 ^ b * n then Ret (a + 1) else Ret a.

(** ** [shors_algorithm]

    The quantum routine is left open: [quantum_period_finding attempt a N
    n_count use_simulator] is what the call of round [attempt] returns, a
    period candidate (a denominator, never negative) or [None], or the
    exception it raises.  The printed lines are not modelled. *)

Section Quantum.

Variable float_log2 : Z -> Z.
Variable float_root : Z -> Z -> res Z.
Variable quantum_period_finding : Z -> Z -> Z -> Z -> bool -> res (option N).

(** One round of the main loop: [inr] is a [return], [inl] goes on with the
    next round ([continue], or the end of the body). *)
Definition shors_attempt (N : Z) (use_simulator : bool) (attempt : Z)
    (gen : rng) : res (rng + list Z * rng) :=
  '(a, gen) <- randint 2 (N - 1) gen ;;
  let g := gcd a N in
  if g >? 1 then Ret (inr ([g; N / g], gen))
  else
    r <- quantum_period_finding attempt a N 8 use_simulator ;;
    match r with
    | None => Ret (inl gen)
    | Some r =>
        let r := Z.of_N r in
        if negb (r mod 2 =? 0) then Ret (inl gen)
        else
          let x := a ^ (r / 2) mod N in
          if x =? N - 1 then Ret (inl gen)
          else
            let factor1 := gcd (x + 1) N in
            let factor2 := gcd (x - 1) N in
            if (factor1 >? 1) && (factor1 <? N) then
              Ret (inr ([factor1; N / factor1], gen))
            else if (factor2 >? 1) && (factor2 <? N) then
              Ret (inr ([factor2; N / factor2], gen))
            else Ret (inl gen)
    end.

Definition shors_algorithm (N : Z) (use_simulator : bool) (max_attempts : Z)
    (gen : rng) : res (option (list Z) * rng) :=
  if N <? 2 then Ret (None, gen)
  else if N mod 2 =? 0 then Ret (Some [2; N / 2], gen)
  else
    power_result <- is_power float_log2 float_root N ;;
    match power_result with
    | Some (base, exp) => Ret (Some (repeat base (Z.to_nat exp)), gen)
    | None =>
        r <- for_loop (range 0 max_attempts)
               (fun attempt gen => shors_attempt N use_simulator attempt gen)
               gen ;;
        match r with
        | inr (factors, gen) => Ret (Some factors, gen)
        | inl gen => Ret (None, gen)
        end
    end.

End Quantum.

(** * Properties *)

Lemma gcd_step (a b : Z) :
  gcd a b = if b =? 0 then a else gcd b (a mod b).
Proof.
  rewrite gcd_equation_1.
  destruct (Z.eq_dec b 0) as [->|Hb]; simpl.
  - reflexivity.
  - destruct (Z.eqb_spec b 0); [contradiction | reflexivity].
Qed.

Lemma gcd_0_r (a : Z) : gcd a 0 = a.
Proof. rewrite gcd_step. reflexivity. Qed.

Lemma gcd_abs (a b : Z) : Z.abs (gcd a b) = Z.gcd a b.
Proof.
  funelim (gcd a b).
  - subst b. rewrite Z.gcd_0_r. reflexivity.
  - match goal with IH : Z.abs _ = _ |- _ => rewrite IH end.
    rewrite (Z.gcd_comm b), Z.gcd_mod by assumption.
    apply Z.gcd_comm.
Qed.

Lemma gcd_nonneg (a b : Z) : 0 <= a -> 0 <= b -> 0 <= gcd a b.
Proof.
  funelim (gcd a b); intros Ha Hb.
  - assumption.
  - match goal with IH : _ -> _ -> 0 <= _ |- _ => apply IH end.
    + assumption.
    + apply Z.mod_pos_bound. lia.
Qed.

Lemma gcd_Zgcd (a b : Z) : 0 <= a -> 0 <= b -> gcd a b = Z.gcd a b.
Proof.
  intros Ha Hb. rewrite <- gcd_abs.
  symmetry. apply Z.abs_eq. apply gcd_nonneg; assumption.
Qed.

(** C8 (as amended).  The Euclidean loop returns a greatest common divisor up
    to sign for all integers; for non-negative operands it is the
    non-negative greatest common divisor and the order of the operands does
    not matter; [gcd(a, 0) == a] for every integer, and [gcd(0, 0) == 0]. *)
Theorem gcd_spec (a b : Z) (Ha : 0 <= a) (Hb : 0 <= b) :
  gcd a b = Z.gcd a b /\
  0 <= gcd a b /\
  gcd a b = gcd b a /\
  (forall c d : Z, Z.abs (gcd c d) = Z.gcd c d) /\
  (forall c : Z, gcd c 0 = c) /\
  gcd 0 0 = 0.
Proof.
  repeat apply conj.
  - apply gcd_Zgcd; assumption.
  - apply gcd_nonneg; assumption.
  - rewrite !gcd_Zgcd by assumption. apply Z.gcd_comm.
  - apply gcd_abs.
  - apply gcd_0_r.
  - apply gcd_0_r.
Qed.

Lemma gcd_spec_witness :
  gcd 48 18 = Z.gcd 48 18 /\ 0 <= gcd 48 18 /\ gcd 48 18 = gcd 18 48 /\
  (forall c d : Z, Z.abs (gcd c d) = Z.gcd c d) /\
  (forall c : Z, gcd c 0 = c) /\ gcd 0 0 = 0.
Proof. apply (gcd_spec 48 18); lia. Defined.

(** C8 as stated fails on negative operands: the result takes the sign the
    remainders have, so it can be negative and depends on the order. *)
Lemma gcd_negative_operand :
  gcd 4 (-6) = -2 /\ gcd (-6) 4 = 2 /\
  ~ (forall a b : Z, 0 <= gcd a b /\ gcd a b = gcd b a).
Proof.
  assert (E1 : gcd 4 (-6) = -2) by reflexivity.
  assert (E2 : gcd (-6) 4 = 2) by reflexivity.
  repeat split; try assumption.
  intros H. destruct (H 4 (-6)) as [H0 _]. rewrite E1 in H0. lia.
Qed.

(** ** Loops: total and partial correctness *)

(** A loop whose body keeps [I] and decreases [m] ends within [m s + 1]
    tests, in a state where [I] holds and the condition is false. *)
Lemma while_total {S : Type} (I : S -> Prop) (m : S -> nat)
    (cond : S -> bool) (body : S -> res S) :
  (forall s, I s -> cond s = true ->
     exists s', body s = Ret s' /\ I s' /\ (m s' < m s)%nat) ->
  forall fuel s, I s -> (m s < fuel)%nat ->
    exists s', while fuel cond body s = Ret s' /\ I s' /\ cond s' = false.
Proof.
  intros Hbody fuel. induction fuel as [|k IH]; intros s Hs Hm.
  - lia.
  - simpl. destruct (cond s) eqn:Hc.
    + destruct (Hbody s Hs Hc) as (s' & Hb & Hs' & Hdec).
      rewrite Hb. apply IH; [assumption | lia].
    + exists s. auto.
Qed.

(** Whatever state a loop returns satisfies the invariant its body keeps. *)
Lemma while_partial {S : Type} (I : S -> Prop)
    (cond : S -> bool) (body : S -> res S) :
  (forall s s', I s -> cond s = true -> body s = Ret s' -> I s') ->
  forall fuel s s', I s -> while fuel cond body s = Ret s' ->
    I s' /\ cond s' = false.
Proof.
  intros Hbody fuel. induction fuel as [|k IH]; intros s s' Hs Hw.
  - discriminate.
  - simpl in Hw. destruct (cond s) eqn:Hc.
    + destruct (body s) as [s1| |] eqn:Hb; try discriminate.
      apply (IH s1); [eapply Hbody; eassumption | assumption].
    + injection Hw as <-. auto.
Qed.

(** A loop never raises when its body does not. *)
Lemma while_no_exn {S : Type} (cond : S -> bool) (body : S -> res S) :
  (forall s e, body s <> Exn e) ->
  forall fuel s e, while fuel cond body s <> Exn e.
Proof.
  intros Hbody fuel. induction fuel as [|k IH]; intros s e; simpl.
  - discriminate.
  - destruct (cond s); [|discriminate].
    destruct (body s) as [s1|e1|] eqn:Hb.
    + apply IH.
    + exfalso. apply (Hbody s e1). assumption.
    + discriminate.
Qed.

(** A loop whose body decreases [m] whenever it returns does not run out
    of fuel, whether it ends by its condition or by an exception. *)
Lemma while_not_fuel {S : Type} (I : S -> Prop) (m : S -> nat)
    (cond : S -> bool) (body : S -> res S) :
  (forall s, I s -> cond s = true ->
     match body s with
     | Ret s' => I s' /\ (m s' < m s)%nat
     | Exn _ => True
     | Fuel => False
     end) ->
  forall fuel s, I s -> (m s < fuel)%nat -> while fuel cond body s <> Fuel.
Proof.
  intros Hbody fuel. induction fuel as [|k IH]; intros s Hs Hm.
  - lia.
  - simpl. destruct (cond s) eqn:Hc; [|discriminate].
    specialize (Hbody s Hs Hc).
    destruct (body s) as [s'|e|]; [|discriminate|contradiction].
    destruct Hbody as [Hs' Hdec]. apply IH; [assumption | lia].
Qed.

(** ** Products and sorted lists *)

Lemma fold_left_mul_acc (l : list Z) (a : Z) :
  fold_left Z.mul l a = a * fold_left Z.mul l 1.
Proof.
  revert a. induction l as [|x l IH]; intros a; cbn [fold_left].
  - lia.
  - rewrite IH, (IH (1 * x)). lia.
Qed.

Lemma product_nil : product [] = 1.
Proof. reflexivity. Qed.

Lemma product_cons (x : Z) (l : list Z) : product (x :: l) = x * product l.
Proof.
  unfold product. cbn [fold_left]. rewrite fold_left_mul_acc. lia.
Qed.

Lemma product_app (l1 l2 : list Z) :
  product (l1 ++ l2) = product l1 * product l2.
Proof.
  induction l1 as [|x l1 IH]; cbn [app].
  - rewrite product_nil. lia.
  - rewrite !product_cons, IH. lia.
Qed.

Lemma product_snoc (l : list Z) (x : Z) : product (l ++ [x]) = product l * x.
Proof.
  rewrite product_app, product_cons, product_nil. lia.
Qed.

Lemma product_perm (l1 l2 : list Z) :
  Permutation l1 l2 -> product l1 = product l2.
Proof.
  induction 1; rewrite ?product_cons in *; lia.
Qed.

Lemma product_pos (l : list Z) : Forall (fun f => 2 <= f) l -> 1 <= product l.
Proof.
  induction 1 as [|x l Hx _ IH].
  - rewrite product_nil. lia.
  - rewrite product_cons. nia.
Qed.

Lemma Sorted_snoc (l : list Z) (x : Z) :
  Sorted Z.le l -> Forall (fun f => f <= x) l -> Sorted Z.le (l ++ [x]).
Proof.
  induction l as [|y l IH]; intros Hs Hb; simpl.
  - repeat constructor.
  - inversion Hs as [|? ? Hs' Hhd]; subst.
    inversion Hb as [|? ? Hy Hb']; subst.
    constructor.
    + apply IH; assumption.
    + destruct l as [|z l]; simpl.
      * constructor. assumption.
      * inversion Hhd; subst. constructor. assumption.
Qed.

(** ** [trial_division] *)

Lemma mod2_odd (n : Z) : (n mod 2 =? 0) = negb (Z.odd n).
Proof.
  rewrite Zmod_odd. destruct (Z.odd n); reflexivity.
Qed.

Lemma exact_div (n i : Z) : 0 < i -> n mod i = 0 -> n = i * (n / i).
Proof.
  intros Hi Hm. pose proof (Z.div_mod n i) as H. lia.
Qed.

Lemma no_divisor_below_div (i n q : Z) :
  no_divisor_below i n -> (q | n) -> no_divisor_below i q.
Proof.
  intros H Hq d Hd Hdq. apply (H d Hd). eapply Z.divide_trans; eassumption.
Qed.

Lemma no_divisor_prime (i n : Z) :
  1 < i -> no_divisor_below i n -> (i | n) -> Z.prime i.
Proof.
  intros Hi H Hin. split; [assumption|].
  intros d Hd Hdi. apply (H d Hd). eapply Z.divide_trans; eassumption.
Qed.

(** What is left when [i * i > n] is 1 or a prime. *)
Lemma no_divisor_sqrt_prime (i n : Z) :
  0 <= i -> 1 < n -> n < i * i -> no_divisor_below i n -> Z.prime n.
Proof.
  intros Hi0 Hn Hi H. split; [assumption|].
  intros d Hd [e He].
  assert (He1 : 1 < e).
  { destruct (Z_lt_le_dec 1 e) as [?|Hle]; [assumption|]. exfalso. nia. }
  assert (Hen : e < n) by nia.
  assert (Hcase : d < i \/ e < i).
  { destruct (Z_lt_le_dec d i) as [?|Hdi]; [left; assumption|].
    destruct (Z_lt_le_dec e i) as [?|Hei]; [right; assumption|].
    exfalso. pose proof (Z.mul_le_mono_nonneg i e i d). lia. }
  destruct Hcase as [Hlt|Hlt].
  - apply (H d); [lia|]. exists e. assumption.
  - apply (H e); [lia|]. exists d. lia.
Qed.

Lemma no_divisor_le (i n : Z) : 1 < n -> no_divisor_below i n -> i <= n.
Proof.
  intros Hn H. destruct (Z_lt_le_dec n i) as [Hlt|Hle]; [exfalso|assumption].
  apply (H n); [lia|]. apply Z.divide_refl.
Qed.

(** The first loop: the factor 2 is taken out until [n] is odd. *)
Lemma td_loop_two (n0 : Z) :
  2 <= n0 ->
  exists n fs,
    while (S (Z.to_nat n0)) (fun '(n, _) => n mod 2 =? 0)
      (fun '(n, factors) => Ret (n / 2, factors ++ [2])) (n0, [])
    = Ret (n, fs) /\ td_inv_two n0 n fs /\ Z.odd n = true.
Proof.
  intros Hn0.
  destruct (while_total
    (fun s : Z * list Z => td_inv_two n0 (fst s) (snd s))
    (fun s => Z.to_nat (fst s))
    (fun '(n, _) => n mod 2 =? 0)
    (fun '(n, factors) => Ret (n / 2, factors ++ [2])))
    with (fuel := S (Z.to_nat n0)) (s := (n0, @nil Z))
    as ([n fs] & Hw & Hinv & Hc).
  - intros [n fs] (Hn & Hp & Hf) Hc; cbn [fst snd] in *.
    cbv beta iota in Hc. apply Z.eqb_eq in Hc.
    pose proof (exact_div n 2 ltac:(lia) Hc) as He.
    eexists; split; [reflexivity|]. cbn [fst snd]. split.
    + split; [lia | split].
      * rewrite product_snoc. nia.
      * apply Forall_app. split; [assumption|]. repeat constructor.
    + lia.
  - cbn [fst snd]. unfold td_inv_two. rewrite product_nil.
    split; [lia | split; [lia | constructor]].
  - simpl. lia.
  - exists n, fs. cbn [fst snd] in Hinv. cbv beta iota in Hc.
    split; [exact Hw | split; [exact Hinv|]].
    rewrite mod2_odd in Hc. destruct (Z.odd n); [reflexivity|discriminate].
Qed.

(** The inner loop: the divisor [i] is taken out as often as it divides. *)
Lemma td_loop_inner (n0 i n : Z) (fs : list Z) :
  td_inv_odd n0 i i n fs ->
  exists n' fs',
    while (S (Z.to_nat n0)) (fun '(n, _) => n mod i =? 0)
      (fun '(n, factors) => Ret (n / i, factors ++ [i])) (n, fs)
    = Ret (n', fs') /\
    td_inv_odd n0 i i n' fs' /\ n' mod i <> 0 /\ n' <= n.
Proof.
  intros Hinv.
  destruct (while_total
    (fun s : Z * list Z => td_inv_odd n0 i i (fst s) (snd s) /\ fst s <= n)
    (fun s => Z.to_nat (fst s))
    (fun '(n, _) => n mod i =? 0)
    (fun '(n, factors) => Ret (n / i, factors ++ [i])))
    with (fuel := S (Z.to_nat n0)) (s := (n, fs))
    as ([n' fs'] & Hw & [Hinv' Hle] & Hc).
  - intros [m gs] [(Hm & Hodd & Hi & Hiodd & Hp & Hpr & Hs & Hb & Hd) Hle] Hc.
    cbn [fst snd] in *. cbv beta iota in Hc. apply Z.eqb_eq in Hc.
    pose proof (exact_div m i ltac:(lia) Hc) as He.
    assert (Hq : 1 <= m / i < m) by nia.
    assert (Hdiv : (i | m)) by (exists (m / i); lia).
    eexists; split; [reflexivity|]. cbn [fst snd].
    split; [split; [|lia] | lia].
    unfold td_inv_odd.
    split; [lia|]. split.
    { rewrite He, Z.odd_mul, Hiodd in Hodd. exact Hodd. }
    split; [lia|]. split; [assumption|]. split.
    { rewrite product_snoc. nia. }
    split.
    { apply Forall_app. split; [assumption|]. constructor; [|constructor].
      apply (no_divisor_prime i m); [lia | assumption | assumption]. }
    split.
    { apply Sorted_snoc; assumption. }
    split.
    { apply Forall_app. split; [assumption|]. constructor; [lia|constructor]. }
    apply (no_divisor_below_div i m); [assumption|].
    exists i. lia.
  - cbn [fst snd]. split; [assumption | lia].
  - destruct Hinv as (Hn & _). cbn [fst]. lia.
  - exists n', fs'. cbn [fst snd] in *. cbv beta iota in Hc.
    split; [exact Hw|]. split; [assumption|]. split; [|assumption].
    apply Z.eqb_neq. assumption.
Qed.

(** The outer loop: odd divisors are probed while [i * i <= n]. *)
Lemma td_loop_outer (n0 n : Z) (fs : list Z) :
  td_inv_odd n0 2 3 n fs ->
  exists n' i' fs',
    while (S (Z.to_nat n0)) (fun '(n, i, _) => i * i <=? n)
      (fun '(n, i, factors) =>
         '(n, factors) <-
           while (S (Z.to_nat n0)) (fun '(n, _) => n mod i =? 0)
             (fun '(n, factors) => Ret (n / i, factors ++ [i]))
             (n, factors) ;;
         Ret (n, i + 2, factors))
      (n, 3, fs)
    = Ret (n', i', fs') /\
    td_inv_odd n0 (i' - 1) i' n' fs' /\ n' < i' * i'.
Proof.
  intros Hinv.
  destruct (while_total
    (fun s : Z * Z * list Z =>
       td_inv_odd n0 (snd (fst s) - 1) (snd (fst s)) (fst (fst s)) (snd s))
    (fun s => Z.to_nat (fst (fst s) + 2 - snd (fst s)))
    (fun '(n, i, _) => i * i <=? n)
    (fun '(n, i, factors) =>
       '(n, factors) <-
         while (S (Z.to_nat n0)) (fun '(n, _) => n mod i =? 0)
           (fun '(n, factors) => Ret (n / i, factors ++ [i]))
           (n, factors) ;;
       Ret (n, i + 2, factors)))
    with (fuel := S (Z.to_nat n0)) (s := (n, 3, fs))
    as ([[n' i'] fs'] & Hw & Hinv' & Hc).
  - intros [[m i] gs] Hm Hc. cbn [fst snd] in *. cbv beta iota in Hc.
    apply Z.leb_le in Hc.
    destruct Hm as (Hm & Hodd & Hi & Hiodd & Hp & Hpr & Hs & Hb & Hd).
    destruct (td_loop_inner n0 i m gs) as (m' & gs' & Hw & Hinv' & Hnd & Hle).
    { unfold td_inv_odd. repeat (split; [assumption|]).
      split; [|assumption].
      eapply Forall_impl; [|exact Hb]. cbv beta. intros; lia. }
    rewrite Hw. cbn [res_bind].
    eexists; split; [reflexivity|]. cbn [fst snd].
    destruct Hinv' as (Hm' & Hodd' & _ & _ & Hp' & Hpr' & Hs' & Hb' & Hd').
    split.
    + unfold td_inv_odd. split; [assumption|]. split; [assumption|].
      split; [lia|]. split.
      { rewrite Z.odd_add, Hiodd. reflexivity. }
      split; [assumption|]. split; [assumption|]. split; [assumption|].
      split.
      { eapply Forall_impl; [|exact Hb']. cbv beta. intros; lia. }
      intros d Hdr Hdiv.
      assert (Hcase : d < i \/ d = i \/ d = i + 1) by lia.
      destruct Hcase as [Hlt | [-> | ->]].
      * apply (Hd' d); [lia | assumption].
      * apply Hnd. apply Z.mod_divide; [lia | assumption].
      * destruct Hdiv as [k Hk].
        rewrite Hk, Z.odd_mul, Z.odd_add, Hiodd in Hodd'.
        rewrite andb_false_r in Hodd'. discriminate.
    + assert (i <= m) by nia. lia.
  - cbn [fst snd]. exact Hinv.
  - destruct Hinv as (Hn & _). cbn [fst snd]. lia.
  - exists n', i', fs'. cbn [fst snd] in *. cbv beta iota in Hc.
    split; [exact Hw|]. split; [assumption|].
    apply Z.leb_gt. assumption.
Qed.

Lemma trial_division_below_two (n : Z) : n < 2 -> trial_division n = Ret [].
Proof.
  intros Hn. unfold trial_division.
  destruct (Z.ltb_spec n 2); [reflexivity | lia].
Qed.

(** [trial_division] returns, and what it returns is the prime factorisation
    in ascending order. *)
Lemma trial_division_factors (n : Z) :
  2 <= n ->
  exists l,
    trial_division n = Ret l /\
    product l = n /\ Forall Z.prime l /\ Sorted Z.le l.
Proof.
  intros Hn. unfold trial_division.
  destruct (Z.ltb_spec n 2) as [?|_]; [lia|].
  cbv zeta.
  destruct (td_loop_two n Hn) as (n1 & fs1 & Hw1 & (Hn1 & Hp1 & Hf1) & Hodd1).
  rewrite Hw1. cbn [res_bind].
  destruct (td_loop_outer n n1 fs1) as (n2 & i2 & fs2 & Hw2 & Hinv2 & Hc2).
  { unfold td_inv_odd. split; [assumption|]. split; [assumption|].
    split; [lia|]. split; [reflexivity|]. split; [assumption|].
    split.
    { eapply Forall_impl; [|exact Hf1]. cbv beta. intros a ->. exact Z.prime_2. }
    split.
    { clear - Hf1. induction Hf1 as [|x l Hx Hl IH]; [constructor|].
      constructor; [assumption|]. destruct Hl; constructor. lia. }
    split.
    { eapply Forall_impl; [|exact Hf1]. cbv beta. intros; lia. }
    intros d Hd [k Hk]. assert (d = 2) by lia. subst d.
    rewrite Hk, Z.odd_mul in Hodd1. rewrite andb_false_r in Hodd1.
    discriminate. }
  rewrite Hw2. cbn [res_bind].
  destruct Hinv2 as (Hn2 & Hodd2 & Hi2 & Hiodd2 & Hp2 & Hpr2 & Hs2 & Hb2 & Hd2).
  eexists; split; [reflexivity|].
  destruct (Z.ltb_spec 2 n2) as [Hgt|Hle].
  - assert (Hprime : Z.prime n2).
    { apply (no_divisor_sqrt_prime i2); [lia | lia | assumption | assumption]. }
    pose proof (no_divisor_le i2 n2 ltac:(lia) Hd2) as Hin.
    split; [rewrite product_snoc; lia|]. split.
    + apply Forall_app. split; [assumption|]. constructor; [assumption|constructor].
    + apply Sorted_snoc; [assumption|].
      eapply Forall_impl; [|exact Hb2]. cbv beta. intros; lia.
  - assert (n2 = 1).
    { destruct (Z.eq_dec n2 2) as [->|]; [discriminate|lia]. }
    subst n2. split; [lia|]. split; assumption.
Qed.

(** C1.  For every integer [n >= 2], [trial_division(n)] returns a list whose
    product is [n], whose elements are all prime and which is in ascending
    order; for [n < 2] it returns the empty list. *)
Theorem trial_division_correct (n : Z) :
  exists l,
    trial_division n = Ret l /\
    (2 <= n -> product l = n /\ Forall Z.prime l /\ Sorted Z.le l) /\
    (n < 2 -> l = []).
Proof.
  destruct (Z_lt_le_dec n 2) as [Hlt|Hge].
  - exists []. split; [apply trial_division_below_two; assumption|].
    split; [lia | reflexivity].
  - destruct (trial_division_factors n Hge) as (l & Hl & Hspec).
    exists l. split; [assumption|]. split; [intros _; assumption | lia].
Qed.

Lemma trial_division_correct_witness :
  exists l,
    trial_division 100 = Ret l /\
    product l = 100 /\ Forall Z.prime l /\ Sorted Z.le l.
Proof.
  destruct (trial_division_correct 100) as (l & Hl & Hge & _).
  exists l. split; [exact Hl | apply Hge; lia].
Defined.

(** ** Ranges *)

Lemma In_range_from (count : nat) (start step x : Z) :
  In x (range_from count start step) <->
  exists k : nat, (k < count)%nat /\ x = start + step * Z.of_nat k.
Proof.
  revert start. induction count as [|c IH]; intros start; simpl.
  - split; [contradiction | intros (k & Hk & _); lia].
  - rewrite IH. split.
    + intros [<- | (k & Hk & ->)].
      * exists 0%nat. split; lia.
      * exists (S k). split; lia.
    + intros ([|k] & Hk & ->).
      * left. lia.
      * right. exists k. split; lia.
Qed.

(** [range(3, stop, 2)] holds the odd numbers from 3 up to [stop - 1]. *)
Lemma In_range_odd (stop x : Z) :
  In x (range_step 3 stop 2) <-> 3 <= x < stop /\ Z.odd x = true.
Proof.
  unfold range_step. rewrite In_range_from.
  pose proof (Z.div_mod (stop - 3 + 2 - 1) 2 ltac:(lia)) as Hdm.
  pose proof (Z.mod_pos_bound (stop - 3 + 2 - 1) 2 ltac:(lia)) as Hmb.
  split.
  - intros (k & Hk & ->). split.
    + lia.
    + rewrite Z.odd_add, Z.odd_mul. reflexivity.
  - intros [Hx Hodd].
    pose proof (Zmod_odd x) as Hxm. rewrite Hodd in Hxm.
    pose proof (Z.div_mod x 2 ltac:(lia)) as Hxd.
    exists (Z.to_nat ((x - 3) / 2)).
    pose proof (Z.div_mod (x - 3) 2 ltac:(lia)) as Hyd.
    pose proof (Z.mod_pos_bound (x - 3) 2 ltac:(lia)) as Hyb.
    assert (Hy0 : (x - 3) mod 2 = 0).
    { replace (x - 3) with (x + (-2) * 2 + 1) by lia.
      rewrite <- Z.add_mod_idemp_l by lia.
      rewrite Z.mod_add by lia. rewrite Hxm. reflexivity. }
    split; lia.
Qed.

(** ** [is_prime_simple] *)

Lemma sqrt_million (n : Z) : 0 <= n <= 1000000 -> Z.sqrt n <= 1000.
Proof.
  intros Hn. change 1000 with (Z.sqrt 1000000).
  apply Z.sqrt_le_mono. lia.
Qed.

(** Below [1000^2] the bounded window of odd divisors is exhaustive. *)
Lemma is_prime_simple_window (n : Z) :
  3 <= n <= 1000000 -> Z.odd n = true ->
  (existsb (fun i => n mod i =? 0)
     (range_step 3 (Z.min (int_sqrt n + 1) SMALL_PRIME_LIMIT) 2) = false
   <-> Z.prime n).
Proof.
  intros Hn Hodd. unfold int_sqrt, SMALL_PRIME_LIMIT.
  pose proof (Z.sqrt_spec n ltac:(lia)) as Hs. cbv zeta in Hs.
  pose proof (Z.sqrt_nonneg n) as Hs0.
  pose proof (sqrt_million n ltac:(lia)) as Hs1.
  split.
  - intros Hex. split; [lia|].
    intros d Hd [e He].
    assert (He1 : 1 < e).
    { destruct (Z_lt_le_dec 1 e) as [?|Hle]; [assumption|]. exfalso. nia. }
    (* the smaller of the two cofactors is in the window *)
    assert (Hsmall : exists m, 1 < m /\ m * m <= n /\ (m | n)).
    { destruct (Z_le_gt_dec d e) as [Hde|Hde].
      - exists d. split; [lia|]. split; [nia|]. exists e. assumption.
      - exists e. split; [lia|]. split; [nia|]. exists d. lia. }
    destruct Hsmall as (m & Hm1 & Hmm & Hmn).
    assert (Hmodd : Z.odd m = true).
    { destruct Hmn as [k Hk]. rewrite Hk, Z.odd_mul in Hodd.
      apply andb_true_iff in Hodd. apply Hodd. }
    assert (Hm3 : 3 <= m).
    { destruct (Z.eq_dec m 2) as [->|]; [discriminate|lia]. }
    assert (Hms : m <= Z.sqrt n) by (apply Z.sqrt_le_square; lia).
    assert (Hm999 : m < 1000).
    { destruct (Z.eq_dec m 1000) as [->|]; [discriminate|lia]. }
    assert (Hin : In m (range_step 3 (Z.min (Z.sqrt n + 1) 1000) 2)).
    { apply In_range_odd. split; [lia|assumption]. }
    assert (Htrue : existsb (fun i => n mod i =? 0)
              (range_step 3 (Z.min (Z.sqrt n + 1) 1000) 2) = true).
    { apply existsb_exists. exists m. split; [assumption|].
      apply Z.eqb_eq. apply Z.mod_divide; [lia|assumption]. }
    rewrite Htrue in Hex. discriminate.
  - intros [_ Hp].
    destruct (existsb _ _) eqn:Hex; [exfalso|reflexivity].
    apply existsb_exists in Hex. destruct Hex as (i & Hi & Hmod).
    apply In_range_odd in Hi. destruct Hi as [Hi _].
    apply Z.eqb_eq in Hmod.
    apply (Hp i).
    + assert (Z.sqrt n < n) by nia. lia.
    + apply Z.mod_divide; [lia|assumption].
Qed.

(** C10.  For every integer [n] with [0 <= n <= 1000000],
    [is_prime_simple(n)] is true if and only if [n] is prime: up to
    [1000^2] the odd divisors below [SMALL_PRIME_LIMIT] are all that can
    matter. *)
Theorem is_prime_simple_exact (n : Z) (Hn : 0 <= n <= 1000000) :
  is_prime_simple n = true <-> Z.prime n.
Proof.
  unfold is_prime_simple.
  destruct (Z.ltb_spec n 2) as [Hlt|Hge].
  { split; [discriminate | intros [H1 _]; lia]. }
  destruct (Z.eqb_spec n 2) as [->|Hne].
  { split; [intros _; exact Z.prime_2 | reflexivity]. }
  rewrite mod2_odd. destruct (Z.odd n) eqn:Hodd; cbn [negb].
  - pose proof (is_prime_simple_window n ltac:(lia) Hodd) as Hw.
    destruct (existsb _ _).
    + split; [discriminate|]. intros Hp. apply Hw in Hp. discriminate.
    + split; [intros _; apply Hw; reflexivity | reflexivity].
  - split; [discriminate|]. intros [_ Hp]. exfalso.
    apply (Hp 2); [lia|].
    pose proof (Zmod_odd n) as Hm. rewrite Hodd in Hm.
    apply Z.mod_divide; [lia|assumption].
Qed.

Lemma is_prime_simple_exact_witness :
  is_prime_simple 999983 = true <-> Z.prime 999983.
Proof. apply (is_prime_simple_exact 999983). lia. Defined.

(** ** [pollard_rho] *)

Lemma pollard_rho_even (n max_iterations : Z) (g : rng) :
  n mod 2 = 0 -> pollard_rho n max_iterations g = Ret (Some 2, g).
Proof.
  intros Hn. unfold pollard_rho. rewrite Hn. reflexivity.
Qed.

(** The loop of [pollard_rho] ends within its fuel, with [rho_fast] as [d]. *)
Lemma rho_loop_fast (n c max_iterations : Z) :
  0 < n ->
  forall (rounds fuel : nat) (x y iteration : Z),
    Z.of_nat rounds = Z.max 0 (max_iterations - iteration) ->
    (rounds < fuel)%nat ->
    exists x' y' iteration',
      while fuel
        (fun '(_, _, d, iteration) => (d =? 1) && (iteration <? max_iterations))
        (fun '(x, y, d, iteration) =>
           let x := (x * x + c) mod n in
           let y := (y * y + c) mod n in
           let y := (y * y + c) mod n in
           let d := gcd (Z.abs (x - y)) n in
           Ret (x, y, d, iteration + 1))
        (x, y, 1, iteration)
      = Ret (x', y', rho_fast rounds n c x y, iteration').
Proof.
  intros Hn rounds. induction rounds as [|r IH]; intros fuel x y it Hr Hf.
  - destruct fuel as [|fuel]; [lia|]. cbn [while rho_fast].
    destruct (Z.ltb_spec it max_iterations) as [Hlt|_]; [lia|].
    cbn [Z.eqb Pos.eqb andb]. eauto.
  - destruct fuel as [|fuel]; [lia|]. cbn [while].
    destruct (Z.ltb_spec it max_iterations) as [_|Hge]; [|lia].
    cbn [Z.eqb Pos.eqb andb]. cbv zeta.
    rewrite gcd_Zgcd by (try apply Z.abs_nonneg; lia).
    cbn [rho_fast]. cbv zeta.
    set (x1 := (x * x + c) mod n).
    set (y1 := (((y * y + c) mod n) * ((y * y + c) mod n) + c) mod n).
    destruct (Z.eqb_spec (Z.gcd (Z.abs (x1 - y1)) n) 1) as [Hd|Hd].
    + rewrite Hd. apply IH; lia.
    + destruct fuel as [|fuel]; [lia|]. cbn [while].
      destruct (Z.eqb_spec (Z.gcd (Z.abs (x1 - y1)) n) 1) as [?|_];
        [contradiction|].
      cbn [andb]. eauto.
Qed.

(** On an odd [n >= 3] both draws succeed, the loop ends, and the result is
    read off [rho_fast]. *)
Lemma pollard_rho_odd (n max_iterations : Z) (g : rng) :
  3 <= n -> Z.odd n = true ->
  pollard_rho n max_iterations g =
  let x := 2 + stream g (cursor g) mod (n - 1 - 2 + 1) in
  let c := 1 + stream g (S (cursor g)) mod (n - 1 - 1 + 1) in
  let d := rho_fast (Z.to_nat max_iterations) n c x x in
  Ret (if d =? n then None else Some d,
       {| stream := stream g; cursor := S (S (cursor g)) |}).
Proof.
  intros Hn Hodd. unfold pollard_rho.
  rewrite mod2_odd, Hodd. cbn [negb]. unfold randint.
  destruct (Z.ltb_spec (n - 1) 2) as [?|_]; [lia|].
  cbn [res_bind stream cursor].
  destruct (Z.ltb_spec (n - 1) 1) as [?|_]; [lia|].
  cbn [res_bind]. cbv beta iota zeta.
  destruct (rho_loop_fast n
              (1 + stream g (S (cursor g)) mod (n - 1 - 1 + 1))
              max_iterations ltac:(lia)
              (Z.to_nat max_iterations) (S (Z.to_nat max_iterations))
              (2 + stream g (cursor g) mod (n - 1 - 2 + 1))
              (2 + stream g (cursor g) mod (n - 1 - 2 + 1)) 0)
    as (x' & y' & it' & Hw); [lia | lia |].
  cbv beta iota zeta in Hw. rewrite Hw. cbn [res_bind]. cbv beta iota.
  destruct (Z.eqb_spec (rho_fast (Z.to_nat max_iterations) n
      (1 + stream g (S (cursor g)) mod (n - 1 - 1 + 1))
      (2 + stream g (cursor g) mod (n - 1 - 2 + 1))
      (2 + stream g (cursor g) mod (n - 1 - 2 + 1))) n); reflexivity.
Qed.

Lemma rho_fast_divides (n c : Z) :
  0 < n ->
  forall rounds x y,
    1 <= rho_fast rounds n c x y <= n /\ (rho_fast rounds n c x y | n).
Proof.
  intros Hn rounds. induction rounds as [|r IH]; intros x y; cbn [rho_fast].
  - split; [lia | apply Z.divide_1_l].
  - cbv zeta.
    set (d := Z.gcd _ n).
    destruct (Z.eqb_spec d 1) as [_|Hd]; [apply IH|].
    assert (Hdiv : (d | n)) by apply Z.gcd_divide_r.
    pose proof (Z.gcd_nonneg (Z.abs ((x * x + c) mod n -
      (((y * y + c) mod n) * ((y * y + c) mod n) + c) mod n)) n) as H0.
    fold d in H0.
    assert (d <> 0).
    { intros E. unfold d in E. apply Z.gcd_eq_0_r in E. lia. }
    split; [|assumption].
    split; [lia|]. apply Z.divide_pos_le; [lia|assumption].
Qed.

(** Whatever [pollard_rho] returns on [n >= 3] is [None] or a divisor of
    [n] from 1 up to [n - 1]. *)
Lemma pollard_rho_result (n max_iterations : Z) (g g' : rng) (r : option Z) :
  3 <= n ->
  pollard_rho n max_iterations g = Ret (r, g') ->
  match r with
  | Some d => 1 <= d < n /\ (d | n)
  | None => True
  end.
Proof.
  intros Hn Hr. destruct (Z.odd n) eqn:Hodd.
  - rewrite pollard_rho_odd in Hr by assumption. cbv zeta in Hr.
    match type of Hr with
    | context [rho_fast ?k n ?c ?x ?y] =>
        pose proof (rho_fast_divides n c ltac:(lia) k x y) as [Hb Hdiv];
        remember (rho_fast k n c x y) as d eqn:Ed
    end.
    clear Ed. destruct (Z.eqb_spec d n) as [_|Hd]; injection Hr as <- _.
    + exact I.
    + split; [lia | assumption].
  - assert (Hm : n mod 2 = 0) by (rewrite Zmod_odd, Hodd; reflexivity).
    rewrite pollard_rho_even in Hr by assumption.
    injection Hr as <- _. split; [|apply Z.mod_divide; lia].
    assert (n <> 3) by (intros ->; discriminate). lia.
Qed.

(** A factor other than 1 makes both recursive calls of
    [pollard_rho_factorize] smaller. *)
Lemma pollard_rho_split_shrinks (n max_iterations d : Z) (g g' : rng) :
  3 <= n ->
  pollard_rho n max_iterations g = Ret (Some d, g') ->
  d <> 1 ->
  1 < d < n /\ 1 < n / d < n /\ d * (n / d) = n.
Proof.
  intros Hn Hr Hd.
  pose proof (pollard_rho_result n max_iterations g g' (Some d) Hn Hr)
    as [Hb [k Hk]].
  assert (Hk1 : 1 < k < n) by nia.
  subst n. rewrite Z.div_mul by lia. split; [lia|]. split; lia.
Qed.

(** ** Divisibility of [u^a - 1] *)

Lemma divide_pow_minus_1 (g u a : Z) :
  0 <= a -> (g | u - 1) -> (g | u ^ a - 1).
Proof.
  intros Ha Hu. revert a Ha. apply natlike_ind.
  - rewrite Z.pow_0_r. exists 0. lia.
  - intros a Ha IH. rewrite Z.pow_succ_r by assumption.
    replace (u * u ^ a - 1) with (u * (u ^ a - 1) + (u - 1)) by ring.
    apply Z.divide_add_r; [apply Z.divide_mul_r|]; assumption.
Qed.

(** The exponents [a] with [g | u^a - 1] are closed under gcd. *)
Lemma divide_pow_gcd (g u : Z) :
  forall (fuel : nat) (a b : Z),
    0 <= a -> 0 <= b < Z.of_nat fuel ->
    (g | u ^ a - 1) -> (g | u ^ b - 1) -> (g | u ^ Z.gcd a b - 1).
Proof.
  induction fuel as [|fuel IH]; intros a b Ha Hb Hga Hgb; [lia|].
  destruct (Z.eq_dec b 0) as [->|Hb0].
  - rewrite Z.gcd_0_r, Z.abs_eq by assumption. assumption.
  - pose proof (Z.div_mod a b Hb0) as Hdm.
    pose proof (Z.mod_pos_bound a b ltac:(lia)) as Hmb.
    assert (Hq : 0 <= a / b) by (apply Z.div_pos; lia).
    replace (Z.gcd a b) with (Z.gcd b (a mod b))
      by (rewrite (Z.gcd_comm b), Z.gcd_mod by assumption; apply Z.gcd_comm).
    apply IH; [lia | lia | assumption |].
    assert (Hpow : u ^ a = (u ^ b) ^ (a / b) * u ^ (a mod b)).
    { rewrite <- Z.pow_mul_r, <- Z.pow_add_r by lia. f_equal. lia. }
    pose proof (divide_pow_minus_1 g (u ^ b) (a / b) Hq Hgb) as Hgq.
    replace (u ^ (a mod b) - 1)
      with ((u ^ a - 1) - ((u ^ b) ^ (a / b) - 1) * u ^ (a mod b))
      by (rewrite Hpow; ring).
    apply Z.divide_sub_r; [assumption|]. apply Z.divide_mul_l. assumption.
Qed.

(** ** Coprimality modulo [n] *)

Lemma divide_1_nonneg (g : Z) : 0 <= g -> (g | 1) -> g = 1.
Proof.
  intros Hg Hd. apply Z.divide_1_r in Hd. lia.
Qed.

Lemma coprime_of_cong (n u v : Z) :
  (n | u - v) -> Z.gcd u n = 1 -> Z.gcd v n = 1.
Proof.
  intros Hc Hu. apply divide_1_nonneg; [apply Z.gcd_nonneg|].
  rewrite <- Hu. apply Z.gcd_greatest; [|apply Z.gcd_divide_r].
  replace u with (v + (u - v)) by ring.
  apply Z.divide_add_r; [apply Z.gcd_divide_l|].
  eapply Z.divide_trans; [apply Z.gcd_divide_r | exact Hc].
Qed.

Lemma coprime_factor (n u v : Z) : Z.gcd (u * v) n = 1 -> Z.gcd v n = 1.
Proof.
  intros Huv. apply divide_1_nonneg; [apply Z.gcd_nonneg|].
  rewrite <- Huv. apply Z.gcd_greatest; [|apply Z.gcd_divide_r].
  apply Z.divide_mul_r. apply Z.gcd_divide_l.
Qed.

Lemma coprime_inverse (n u w : Z) : (n | u * w - 1) -> Z.gcd u n = 1.
Proof.
  intros Hinv. apply divide_1_nonneg; [apply Z.gcd_nonneg|].
  replace 1 with (u * w - (u * w - 1)) by ring.
  apply Z.divide_sub_r.
  - apply Z.divide_mul_l. apply Z.gcd_divide_l.
  - eapply Z.divide_trans; [apply Z.gcd_divide_r | exact Hinv].
Qed.

Lemma mod_1_divide (n u : Z) : 1 < n -> u mod n = 1 -> (n | u - 1).
Proof.
  intros Hn Hu. exists (u / n).
  pose proof (Z.div_mod u n ltac:(lia)). lia.
Qed.

(** ** A walk of [pollard_rho] in closed form

    With the offset [c = n - 2] the map of [pollard_rho] is [x^2 - 2], and
    from a start [x = t + 1/t] the tortoise is at [t^(2^k) + 1/t^(2^k)] after
    [k] rounds and the hare at [t^(4^k) + 1/t^(4^k)].  When the order of [t]
    is a multiple of a prime [r] modulo every divisor of [n], and [r] does
    not divide [4^k - 1], their difference is coprime to [n]. *)

Section ClosedFormWalk.

Variables n t ti r m limit : Z.
Hypothesis Hn : 1 < n.
Hypothesis Hinv : (n | t * ti - 1).
Hypothesis Hr : Z.prime r.
Hypothesis Hr2 : 2 < r.
Hypothesis Hm : 0 <= m.
Hypothesis Hfermat : (n | t ^ (r * m) - 1).
Hypothesis Hcop : Z.gcd (t ^ m - 1) n = 1.
Hypothesis Hord : forall k : Z, 1 <= k <= limit -> ~ (r | 4 ^ k - 1).

Lemma walk_unit_gcd (e : Z) :
  0 <= e -> ~ (r | e) -> Z.gcd (t ^ e - 1) n = 1.
Proof.
  intros He Hre.
  set (g := Z.gcd (t ^ e - 1) n).
  assert (Hge : (g | t ^ Z.gcd e (r * m) - 1)).
  { apply (divide_pow_gcd g t (S (Z.to_nat (r * m)))).
    - assumption.
    - pose proof (Z.prime_ge_2 r Hr). nia.
    - apply Z.gcd_divide_l.
    - eapply Z.divide_trans; [apply Z.gcd_divide_r | exact Hfermat]. }
  set (d := Z.gcd e (r * m)) in *.
  assert (Hd0 : 0 <= d) by apply Z.gcd_nonneg.
  assert (Hde : (d | e)) by apply Z.gcd_divide_l.
  assert (Hdm : (d | m)).
  { apply (Z.gauss d r m); [apply Z.gcd_divide_r|].
    rewrite Z.gcd_comm. apply Z.coprime_prime_l; [assumption|].
    intros Hrd. apply Hre. eapply Z.divide_trans; eassumption. }
  destruct Hdm as [j Hj].
  assert (Hdpos : 0 < d).
  { destruct (Z.eq_dec d 0) as [Hd|]; [|lia]. exfalso. apply Hre.
    rewrite Hd in Hde. apply Z.divide_0_l in Hde. subst e. apply Z.divide_0_r. }
  assert (Hj0 : 0 <= j) by (clear - Hj Hdpos Hm; nia).
  assert (Hgm : (g | t ^ m - 1)).
  { rewrite Hj, Z.mul_comm. rewrite Z.pow_mul_r by (clear - Hj0 Hdpos; lia).
    apply divide_pow_minus_1; assumption. }
  assert (Hg1 : (g | Z.gcd (t ^ m - 1) n)).
  { apply Z.gcd_greatest; [assumption | apply Z.gcd_divide_r]. }
  rewrite Hcop in Hg1.
  apply divide_1_nonneg; [apply Z.gcd_nonneg | assumption].
Qed.

Lemma walk_inverse_pow (a : Z) : 0 <= a -> (n | t ^ a * ti ^ a - 1).
Proof.
  intros Ha. rewrite <- Z.pow_mul_l. apply divide_pow_minus_1; assumption.
Qed.

(** Two points of the walk with exponents [a <= b] differ by a unit. *)
Lemma walk_gcd (a b x y : Z) :
  0 <= a <= b -> ~ (r | b - a) -> ~ (r | a + b) ->
  (n | x - (t ^ a + ti ^ a)) -> (n | y - (t ^ b + ti ^ b)) ->
  Z.gcd (Z.abs (x - y)) n = 1.
Proof.
  intros Hab Hsub Hadd Hx Hy. rewrite Z.gcd_abs_l.
  assert (Ha0 : 0 <= a) by apply Hab.
  assert (Hb0 : 0 <= b) by (apply (Z.le_trans 0 a b); apply Hab).
  assert (Hs0 : 0 <= a + b) by (apply Z.add_nonneg_nonneg; assumption).
  assert (Hd0 : 0 <= b - a) by (apply Z.le_0_sub; apply Hab).
  assert (Eb : b = a + (b - a)) by ring.
  pose proof (walk_inverse_pow a Ha0) as Ha.
  pose proof (walk_inverse_pow b Hb0) as Hb.
  apply (coprime_factor n (t ^ a * t ^ b)).
  apply (coprime_of_cong n ((t ^ a * t ^ b - 1) * (t ^ a - t ^ b))).
  - replace ((t ^ a * t ^ b - 1) * (t ^ a - t ^ b) - t ^ a * t ^ b * (x - y))
      with (t ^ a * t ^ b * (y - (t ^ b + ti ^ b))
            - t ^ a * t ^ b * (x - (t ^ a + ti ^ a))
            - (t ^ b * (t ^ a * ti ^ a - 1) - t ^ a * (t ^ b * ti ^ b - 1)))
      by ring.
    repeat apply Z.divide_sub_r; apply Z.divide_mul_r; assumption.
  - apply Z.coprime_mul_l.
    + rewrite <- Z.pow_add_r by assumption.
      apply walk_unit_gcd; assumption.
    + replace (t ^ a - t ^ b) with (- (t ^ a * (t ^ (b - a) - 1))).
      2:{ rewrite Eb at 2. rewrite Z.pow_add_r by assumption. ring. }
      unfold Z.coprime. rewrite Z.gcd_opp_l. apply Z.coprime_mul_l.
      * apply (coprime_inverse n (t ^ a) (ti ^ a)). assumption.
      * apply walk_unit_gcd; assumption.
Qed.

(** One application of [x^2 + c mod n] doubles the exponent. *)
Lemma walk_step (x a : Z) :
  0 <= a ->
  (n | x - (t ^ a + ti ^ a)) ->
  (n | (x * x + (n - 2)) mod n - (t ^ (2 * a) + ti ^ (2 * a))).
Proof.
  intros Ha Hx.
  pose proof (walk_inverse_pow a Ha) as Hi.
  pose proof (Z.div_mod (x * x + (n - 2)) n ltac:(lia)) as Hdm.
  replace (2 * a) with (a + a) by lia. rewrite !Z.pow_add_r by lia.
  replace ((x * x + (n - 2)) mod n - (t ^ a * t ^ a + ti ^ a * ti ^ a))
    with ((x - (t ^ a + ti ^ a)) * (x + (t ^ a + ti ^ a))
          + 2 * (t ^ a * ti ^ a - 1)
          + n * (1 - (x * x + (n - 2)) / n))
    by (revert Hdm; generalize ((x * x + (n - 2)) mod n);
        generalize ((x * x + (n - 2)) / n); intros; lia).
  repeat apply Z.divide_add_r.
  - apply Z.divide_mul_l. assumption.
  - apply Z.divide_mul_r. assumption.
  - apply Z.divide_factor_l.
Qed.

Lemma not_divide_pow_two (j : Z) : 0 <= j -> ~ (r | 2 ^ j).
Proof.
  intros Hj Hd.
  assert (Hc : Z.gcd r (2 ^ j) = 1).
  { apply Z.coprime_pow_r; [assumption|].
    apply Z.coprime_prime_l; [assumption|].
    intros H2. apply Z.divide_pos_le in H2; lia. }
  assert (Hr1 : (r | 1)).
  { rewrite <- Hc. apply Z.gcd_greatest; [apply Z.divide_refl | assumption]. }
  apply Z.divide_1_r in Hr1. lia.
Qed.

Lemma walk_round_exponents (j : Z) :
  1 <= j <= limit ->
  0 <= 2 ^ j <= 4 ^ j /\
  ~ (r | 4 ^ j - 2 ^ j) /\ ~ (r | 2 ^ j + 4 ^ j).
Proof.
  intros Hj.
  assert (H4 : 4 ^ j = 2 ^ j * 2 ^ j).
  { change 4 with (2 * 2). apply Z.pow_mul_l. }
  pose proof (Z.pow_pos_nonneg 2 j ltac:(lia) ltac:(lia)) as Hp.
  pose proof (Hord j Hj) as Ho.
  pose proof (not_divide_pow_two j ltac:(lia)) as H2.
  rewrite H4 in *. split; [nia|]. split.
  - intros Hd. apply Ho.
    replace (2 ^ j * 2 ^ j - 2 ^ j) with (2 ^ j * (2 ^ j - 1)) in Hd by ring.
    apply Z.divide_prime_mul in Hd; [|assumption].
    destruct Hd as [Hd|Hd]; [contradiction|].
    replace (2 ^ j * 2 ^ j - 1) with ((2 ^ j - 1) * (2 ^ j + 1)) by ring.
    apply Z.divide_mul_l. assumption.
  - intros Hd. apply Ho.
    replace (2 ^ j + 2 ^ j * 2 ^ j) with (2 ^ j * (2 ^ j + 1)) in Hd by ring.
    apply Z.divide_prime_mul in Hd; [|assumption].
    destruct Hd as [Hd|Hd]; [contradiction|].
    replace (2 ^ j * 2 ^ j - 1) with ((2 ^ j - 1) * (2 ^ j + 1)) by ring.
    apply Z.divide_mul_r. assumption.
Qed.

(** From round [k] on, the loop sees the gcd 1 in every round up to
    [limit]. *)
Lemma rho_fast_walk (rounds : nat) :
  forall k x y : Z,
    0 <= k -> k + Z.of_nat rounds <= limit ->
    (n | x - (t ^ (2 ^ k) + ti ^ (2 ^ k))) ->
    (n | y - (t ^ (4 ^ k) + ti ^ (4 ^ k))) ->
    rho_fast rounds n (n - 2) x y = 1.
Proof.
  induction rounds as [|rounds IH]; intros k x y Hk Hlim Hx Hy.
  - reflexivity.
  - assert (Hk1 : 1 <= k + 1 <= limit) by (clear - Hk Hlim; lia).
    assert (Hnext : k + 1 + Z.of_nat rounds <= limit) by (clear - Hlim; lia).
    pose proof (Z.pow_nonneg 2 k ltac:(clear; lia)) as H2k.
    pose proof (Z.pow_nonneg 4 k ltac:(clear; lia)) as H4k.
    assert (E2 : 2 ^ (k + 1) = 2 * 2 ^ k).
    { rewrite Z.pow_add_r by (clear - Hk; lia). rewrite Z.pow_1_r. apply Z.mul_comm. }
    assert (E4 : 4 ^ (k + 1) = 2 * (2 * 4 ^ k)).
    { rewrite Z.pow_add_r by (clear - Hk; lia). rewrite Z.pow_1_r.
      rewrite Z.mul_assoc. apply Z.mul_comm. }
    cbn [rho_fast]. cbv zeta.
    set (x1 := (x * x + (n - 2)) mod n).
    set (y1 := (y * y + (n - 2)) mod n).
    set (y2 := (y1 * y1 + (n - 2)) mod n).
    assert (Hx1 : (n | x1 - (t ^ (2 ^ (k + 1)) + ti ^ (2 ^ (k + 1))))).
    { rewrite E2. apply walk_step; assumption. }
    assert (Hy2 : (n | y2 - (t ^ (4 ^ (k + 1)) + ti ^ (4 ^ (k + 1))))).
    { rewrite E4. apply walk_step.
      - apply Z.mul_nonneg_nonneg; [clear; lia | assumption].
      - apply walk_step; assumption. }
    destruct (walk_round_exponents (k + 1) Hk1) as (Hle & Hsub & Hadd).
    rewrite (walk_gcd (2 ^ (k + 1)) (4 ^ (k + 1)) x1 y2 Hle Hsub Hadd Hx1 Hy2).
    rewrite Z.eqb_refl.
    apply (IH (k + 1)); [clear - Hk; lia | assumption | assumption | assumption].
Qed.

End ClosedFormWalk.

(** The order of 4 modulo a safe prime [r = 2 s + 1] is at least [s]. *)
Lemma safe_prime_order (r s limit : Z) :
  Z.prime s -> r = 2 * s + 1 -> 15 < r -> limit < s ->
  (r | 4 ^ (r - 1) - 1) ->
  forall k : Z, 1 <= k <= limit -> ~ (r | 4 ^ k - 1).
Proof.
  intros Hs Hr H15 Hlim Hf k Hk Hd.
  assert (Hg : (r | 4 ^ Z.gcd k (r - 1) - 1)).
  { apply (divide_pow_gcd r 4 (S (Z.to_nat (r - 1)))); [lia | lia | assumption..]. }
  set (g := Z.gcd k (r - 1)) in *.
  assert (Hg0 : 0 <= g) by apply Z.gcd_nonneg.
  assert (Hgk : (g | k)) by apply Z.gcd_divide_l.
  assert (Hgr : (g | s * 2)).
  { replace (s * 2) with (r - 1) by lia. apply Z.gcd_divide_r. }
  assert (Hgle : g <= k) by (apply Z.divide_pos_le; [lia|assumption]).
  assert (Hgpos : 0 < g).
  { destruct (Z.eq_dec g 0) as [Hz|]; [|lia].
    rewrite Hz in Hgk. apply Z.divide_0_l in Hgk. lia. }
  assert (Hg2 : (g | 2)).
  { apply (Z.gauss g s 2); [assumption|].
    rewrite Z.gcd_comm. apply Z.coprime_prime_l; [assumption|].
    intros Hsg. apply Z.divide_pos_le in Hsg; lia. }
  apply Z.divide_pos_le in Hg2; [|lia].
  assert (Hcase : g = 1 \/ g = 2) by lia.
  destruct Hcase as [Hc|Hc]; rewrite Hc in Hg;
    apply Z.divide_pos_le in Hg; simpl in Hg; lia.
Qed.

(** ** Ranges of consecutive integers and primality by trial *)

Lemma In_range (a b x : Z) : In x (range a b) <-> a <= x < b.
Proof.
  unfold range, range_step. rewrite In_range_from.
  replace (b - a + 1 - 1) with (b - a) by lia. rewrite Z.div_1_r.
  split.
  - intros (k & Hk & ->). lia.
  - intros Hx. exists (Z.to_nat (x - a)). split; lia.
Qed.

Lemma prime_by_trial (p i : Z) :
  1 < p -> 0 <= i -> p < i * i ->
  forallb (fun d => negb (p mod d =? 0)) (range 2 i) = true ->
  Z.prime p.
Proof.
  intros Hp Hi Hsq Hall. apply (no_divisor_sqrt_prime i); try assumption.
  intros d Hd Hdiv.
  rewrite forallb_forall in Hall.
  specialize (Hall d ltac:(apply In_range; lia)).
  apply negb_true_iff, Z.eqb_neq in Hall. apply Hall.
  apply Z.mod_divide; [lia | assumption].
Qed.

(** ** The walk on [stuck_number] *)

Lemma prime_100403 : Z.prime 100403.
Proof.
  apply (prime_by_trial 100403 317); [lia | lia | lia |].
  vm_compute. reflexivity.
Qed.

Lemma prime_200807 : Z.prime 200807.
Proof.
  apply (prime_by_trial 200807 449); [lia | lia | lia |].
  vm_compute. reflexivity.
Qed.

Lemma pow_mod_divide (u e n : Z) :
  1 < n -> Zpow_mod u e n = 1 -> (n | u ^ e - 1).
Proof.
  intros Hn Hp. apply mod_1_divide; [assumption|].
  rewrite <- Zpow_mod_correct; [assumption|].
  intros ->. discriminate Hn.
Qed.

Lemma order_four_200807 (k : Z) :
  1 <= k <= 100000 -> ~ (200807 | 4 ^ k - 1).
Proof.
  apply (safe_prime_order 200807 100403 100000).
  - exact prime_100403.
  - reflexivity.
  - reflexivity.
  - reflexivity.
  - apply pow_mod_divide; [reflexivity|]. vm_compute. reflexivity.
Qed.

(** With the draws [x = 803231] and [c = n - 2] the tortoise and the hare
    stay a unit apart modulo [stuck_number] for the whole default budget of
    100000 rounds. *)
Lemma rho_fast_stuck :
  rho_fast (Z.to_nat 100000) stuck_number (stuck_number - 2) 803231 803231 = 1.
Proof.
  apply rho_fast_walk
    with (t := 2) (ti := 803229) (r := 200807) (m := 8) (limit := 100000)
         (k := 0).
  - reflexivity.
  - exists 1. reflexivity.
  - exact prime_200807.
  - reflexivity.
  - discriminate.
  - apply pow_mod_divide; [reflexivity|]. vm_compute. reflexivity.
  - reflexivity.
  - exact order_four_200807.
  - discriminate.
  - rewrite Z2Nat.id by discriminate. apply Z.le_refl.
  - exists 0. reflexivity.
  - exists 0. reflexivity.
Qed.

Lemma pollard_rho_stuck (cur : nat) :
  pollard_rho stuck_number 100000 (const_rng stuck_draw cur)
  = Ret (Some 1, const_rng stuck_draw (S (S cur))).
Proof.
  rewrite pollard_rho_odd by (unfold stuck_number; (lia || reflexivity)).
  cbv zeta. unfold const_rng. cbn [stream cursor].
  change (2 + stuck_draw mod (stuck_number - 1 - 2 + 1)) with 803231.
  change (1 + stuck_draw mod (stuck_number - 1 - 1 + 1))
    with (stuck_number - 2).
  rewrite rho_fast_stuck. reflexivity.
Qed.

(** With the budget 1 and the draws [x = 2], [c = 2] on 15 (raw draw 169),
    the only round ends with [gcd(2, 15) = 1]. *)
Lemma pollard_rho_one_round :
  pollard_rho 15 1 (const_rng 169 0) = Ret (Some 1, const_rng 169 2).
Proof.
  rewrite pollard_rho_odd by (lia || reflexivity). reflexivity.
Qed.

(** C4 fails on the code: when the budget runs out while [d] is still 1, the
    final test [d != n] lets that 1 through, so [pollard_rho] returns the
    trivial factor 1 instead of reporting that no factor was found.  Shown
    with a budget of one round on 15 and with the default budget on
    [stuck_number]. *)
Theorem pollard_rho_returns_one :
  pollard_rho 15 1 (const_rng 169 0) = Ret (Some 1, const_rng 169 2) /\
  pollard_rho stuck_number 100000 (const_rng stuck_draw 0)
  = Ret (Some 1, const_rng stuck_draw 2).
Proof.
  split.
  - exact pollard_rho_one_round.
  - apply pollard_rho_stuck.
Qed.

(** ** [pollard_rho_factorize] *)

Lemma pollard_rho_factorize_below_two (depth : nat) (n : Z) (g : rng) :
  n < 2 -> pollard_rho_factorize (S depth) n g = Ret ([], g).
Proof.
  intros Hn. cbn [pollard_rho_factorize].
  destruct (Z.ltb_spec n 2); [reflexivity | lia].
Qed.

(** On [stuck_number], when every raw draw is [stuck_draw], every nesting
    depth is used up: the factor 1 sends the second recursive call back to
    the same number. *)
Lemma pollard_rho_factorize_stuck (depth cur : nat) :
  pollard_rho_factorize depth stuck_number (const_rng stuck_draw cur) = Fuel.
Proof.
  revert cur. induction depth as [|d IH]; intros cur; [reflexivity|].
  cbn [pollard_rho_factorize].
  change (stuck_number <? 2) with false.
  change (stuck_number =? 2) with false.
  change (stuck_number <? PRIME_THRESHOLD) with false.
  rewrite andb_false_r. cbv beta iota.
  rewrite pollard_rho_stuck. cbn [res_bind]. cbv beta iota.
  change (1 =? stuck_number) with false. cbv beta iota.
  destruct d as [|d'].
  - reflexivity.
  - rewrite pollard_rho_factorize_below_two by lia.
    cbn [res_bind]. cbv beta iota.
    rewrite Z.div_1_r. rewrite IH. reflexivity.
Qed.

(** C7 fails on the code: [pollard_rho] can hand back the factor 1 (see C4),
    which is neither [None] nor [n], so [pollard_rho_factorize(n)] calls
    itself on [n // 1], the same [n]; on [stuck_number], when every raw draw
    is [stuck_draw], no nesting depth is enough for it to return. *)
Theorem pollard_rho_factorize_not_shrinking :
  (forall cur : nat,
     pollard_rho stuck_number 100000 (const_rng stuck_draw cur)
     = Ret (Some 1, const_rng stuck_draw (S (S cur)))) /\
  stuck_number / 1 = stuck_number /\
  (forall depth : nat,
     pollard_rho_factorize depth stuck_number (const_rng stuck_draw 0) = Fuel).
Proof.
  split; [exact pollard_rho_stuck|].
  split; [apply Z.div_1_r|].
  intros depth. apply pollard_rho_factorize_stuck.
Qed.

Lemma insert_sorted_perm (x : Z) (l : list Z) :
  Permutation (insert_sorted x l) (x :: l).
Proof.
  induction l as [|y l IH]; simpl.
  - apply Permutation_refl.
  - destruct (x <=? y).
    + apply Permutation_refl.
    + rewrite IH. apply perm_swap.
Qed.

Lemma sorted_perm (l : list Z) : Permutation (sorted l) l.
Proof.
  induction l as [|x l IH]; simpl.
  - apply perm_nil.
  - rewrite insert_sorted_perm. apply perm_skip. exact IH.
Qed.

Lemma insert_sorted_Sorted (x : Z) (l : list Z) :
  Sorted Z.le l -> Sorted Z.le (insert_sorted x l).
Proof.
  induction l as [|y l IH]; intros Hs; simpl.
  - repeat constructor.
  - destruct (Z.leb_spec x y) as [Hxy|Hxy].
    + constructor; [assumption|]. constructor. assumption.
    + inversion Hs as [|? ? Hs' Hhd]; subst.
      constructor; [apply IH; assumption|].
      destruct l as [|z l]; simpl.
      * constructor. lia.
      * destruct (x <=? z); constructor; [lia|].
        inversion Hhd; subst. assumption.
Qed.

Lemma sorted_Sorted (l : list Z) : Sorted Z.le (sorted l).
Proof.
  induction l as [|x l IH]; simpl.
  - constructor.
  - apply insert_sorted_Sorted. exact IH.
Qed.

Lemma Forall_prime_ge_2 (l : list Z) :
  Forall Z.prime l -> Forall (fun f => 2 <= f) l.
Proof.
  intros H. eapply Forall_impl; [|exact H]. cbv beta.
  intros a [Ha _]. lia.
Qed.

(** A split [n = d * (n / d)] gives back [n] from the factors of the parts. *)
Lemma product_split_sorted (n d : Z) (l1 l2 : list Z) :
  0 < d -> (d | n) ->
  product l1 = d /\ Forall (fun f => 2 <= f) l1 ->
  product l2 = n / d /\ Forall (fun f => 2 <= f) l2 ->
  product (sorted ([] ++ l1 ++ l2)) = n /\
  Forall (fun f => 2 <= f) (sorted ([] ++ l1 ++ l2)).
Proof.
  intros Hd [k Hk] [Hp1 Hf1] [Hp2 Hf2]. cbn [app]. split.
  - rewrite (product_perm _ _ (sorted_perm _)), product_app, Hp1, Hp2.
    subst n. rewrite Z.div_mul by lia. lia.
  - eapply Permutation_Forall.
    + apply Permutation_sym. apply sorted_perm.
    + apply Forall_app. split; assumption.
Qed.

(** Whatever [pollard_rho_factorize] returns has product [n] and no factor
    below 2. *)
Lemma pollard_rho_factorize_sound (depth : nat) :
  forall (n : Z) (g g' : rng) (l : list Z),
    1 <= n ->
    pollard_rho_factorize depth n g = Ret (l, g') ->
    product l = n /\ Forall (fun f => 2 <= f) l.
Proof.
  induction depth as [|depth IH]; intros n g g' l Hn Hr.
  - discriminate.
  - cbn [pollard_rho_factorize] in Hr.
    destruct (Z.ltb_spec n 2) as [Hlt|Hge].
    { injection Hr as <- _. split; [rewrite product_nil; lia | constructor]. }
    destruct (Z.eqb_spec n 2) as [->|Hne].
    { injection Hr as <- _. split; [reflexivity | repeat constructor; lia]. }
    assert (Hsingle : product [n] = n /\ Forall (fun f => 2 <= f) [n]).
    { split; [rewrite product_cons, product_nil; lia|].
      repeat constructor; lia. }
    assert (Hfallback : forall r : res (list Z * rng),
      (if n <? 10000 then l0 <- trial_division n ;; Ret (l0, g') else Ret ([n], g'))
      = r -> forall l1 g1, r = Ret (l1, g1) ->
      product l1 = n /\ Forall (fun f => 2 <= f) l1).
    { intros r <- l1 g1 Hf. destruct (n <? 10000).
      - destruct (trial_division_factors n ltac:(lia)) as (l0 & Hl0 & Hp & Hpr & _).
        rewrite Hl0 in Hf. cbn [res_bind] in Hf. injection Hf as <- _.
        split; [assumption | apply Forall_prime_ge_2; assumption].
      - injection Hf as <- _. exact Hsingle. }
    destruct (forallb _ _ && (n <? PRIME_THRESHOLD)).
    { injection Hr as <- _. exact Hsingle. }
    cbv zeta in Hr.
    destruct (pollard_rho n 100000 g) as [[factor g1]| |] eqn:Hrho;
      try discriminate.
    cbn [res_bind] in Hr. cbv beta iota in Hr.
    pose proof (pollard_rho_result n 100000 g g1 factor ltac:(lia) Hrho) as Hf.
    destruct factor as [d|].
    + destruct Hf as [Hd Hdiv].
      destruct (Z.eqb_spec d n) as [?|_]; [lia|].
      destruct (pollard_rho_factorize depth d g1) as [[l1 g2]| |] eqn:H1;
        try discriminate.
      cbn [res_bind] in Hr. cbv beta iota in Hr.
      destruct (pollard_rho_factorize depth (n / d) g2) as [[l2 g3]| |] eqn:H2;
        try discriminate.
      cbn [res_bind] in Hr. cbv beta iota in Hr.
      injection Hr as <- _.
      apply (product_split_sorted n d); [lia | assumption | |].
      * apply (IH d g1 g2); [lia | assumption].
      * apply (IH (n / d) g2 g3); [|assumption].
        destruct Hdiv as [k Hk]. subst n. rewrite Z.div_mul by lia. nia.
    + destruct (n <? 10000).
      * destruct (trial_division_factors n ltac:(lia)) as (l0 & Hl0 & Hp & Hpr & _).
        rewrite Hl0 in Hr. cbn [res_bind] in Hr. injection Hr as <- _.
        split; [assumption | apply Forall_prime_ge_2; assumption].
      * injection Hr as <- _. exact Hsingle.
Qed.

(** ** [fermat_factorization] *)

Lemma sqrt_not_square (m : Z) :
  0 <= m -> Z.sqrt m * Z.sqrt m <> m -> ~ is_square m.
Proof.
  intros Hm Hne [c Hc]. apply Hne.
  assert (Habs : Z.abs c * Z.abs c = m) by lia.
  rewrite <- Habs at 1 2.
  rewrite Z.sqrt_square by apply Z.abs_nonneg. exact Habs.
Qed.

Lemma math_ceil_sqrt_spec (n a0 : Z) :
  math_ceil_sqrt n = Ret a0 ->
  0 <= n /\ 0 <= a0 /\ n <= a0 * a0 /\ (0 < n -> (a0 - 1) * (a0 - 1) < n).
Proof.
  unfold math_ceil_sqrt. destruct (Z.ltb_spec n 0) as [?|Hn]; [discriminate|].
  cbv zeta. intros H. injection H as <-.
  pose proof (Z.sqrt_spec n Hn) as Hs. cbv zeta in Hs.
  pose proof (Z.sqrt_nonneg n) as Hs0.
  destruct (Z.eqb_spec (Z.sqrt n * Z.sqrt n) n) as [He|Hne].
  - split; [assumption|]. split; [assumption|]. split; [lia|].
    intros Hpos. nia.
  - split; [assumption|]. split; [lia|]. split; [nia|].
    intros Hpos. replace (Z.sqrt n + 1 - 1) with (Z.sqrt n) by lia. lia.
Qed.

(** The state the loop of [fermat_factorization] ends in. *)
Lemma fermat_loop_inv (n max_iterations a0 : Z) (fuel : nat)
    (s : Z * Z * Z * option (Z * Z)) :
  while fuel
    (fun '(_, _, iteration, returned) =>
       match returned with
       | Some _ => false
       | None => iteration <? max_iterations
       end)
    (fun '(a, b_sq, iteration, _) =>
       b <- math_int_sqrt b_sq ;;
       if b * b =? b_sq then Ret (a, b_sq, iteration, Some (a - b, a + b))
       else
         let a := a + 1 in
         let b_sq := a * a - n in
         Ret (a, b_sq, iteration + 1, None))
    (a0, a0 * a0 - n, 0, None) = Ret s ->
  fermat_inv n a0 s.
Proof.
  intros Hw.
  eapply (while_partial (fermat_inv n a0)) in Hw.
  - apply Hw.
  - intros [[[a b_sq] it] returned] s' (Ha & Hb & Hno & _) _ Hbody.
    unfold math_int_sqrt in Hbody.
    destruct (Z.ltb_spec b_sq 0) as [?|Hb0]; [discriminate|].
    cbn [res_bind] in Hbody.
    destruct (Z.eqb_spec (Z.sqrt b_sq * Z.sqrt b_sq) b_sq) as [He|Hne];
      injection Hbody as <-; unfold fermat_inv.
    + split; [assumption|]. split; [assumption|]. split; [assumption|].
      exists (Z.sqrt b_sq). pose proof (Z.sqrt_nonneg b_sq). repeat split; lia.
    + split; [lia|]. split; [reflexivity|]. split; [|exact I].
      intros a' Ha'. destruct (Z.eq_dec a' a) as [->|Hneq].
      * rewrite <- Hb. apply sqrt_not_square; assumption.
      * apply Hno. lia.
  - unfold fermat_inv. split; [lia|]. split; [reflexivity|].
    split; [intros; lia | exact I].
Qed.

(** What [fermat_factorization] returns as a pair, in terms of the search. *)
Lemma fermat_factorization_pair (n max_iterations p q : Z) :
  fermat_factorization n max_iterations = Ret (Some (p, q)) ->
  (n mod 2 = 0 /\ p = 2 /\ q = n / 2) \/
  (n mod 2 <> 0 /\
   exists a0 a b : Z,
     math_ceil_sqrt n = Ret a0 /\ a0 <= a /\ 0 <= b /\ b * b = a * a - n /\
     p = a - b /\ q = a + b /\
     forall a' : Z, a0 <= a' < a -> ~ is_square (a' * a' - n)).
Proof.
  unfold fermat_factorization. intros Hr.
  destruct (Z.eqb_spec (n mod 2) 0) as [He|Hne].
  - left. injection Hr as <- <-. auto.
  - right. split; [assumption|].
    destruct (math_ceil_sqrt n) as [a0| |] eqn:Ha0; try discriminate.
    cbn [res_bind] in Hr. cbv zeta in Hr.
    match type of Hr with
    | res_bind ?w _ = _ => destruct w as [[[[a b_sq] it] returned]| |] eqn:Hw
    end; try discriminate.
    cbn [res_bind] in Hr. injection Hr as ->.
    apply fermat_loop_inv in Hw.
    destruct Hw as (Ha & Hb & Hno & (b & Hb0 & Hbb & -> & ->)).
    exists a0, a, b. repeat split; assumption.
Qed.

Lemma fermat_factorization_product (n max_iterations p q : Z) :
  fermat_factorization n max_iterations = Ret (Some (p, q)) -> p * q = n.
Proof.
  intros Hr. apply fermat_factorization_pair in Hr.
  destruct Hr as [(He & -> & ->) | (_ & a0 & a & b & _ & _ & _ & Hbb & -> & -> & _)].
  - pose proof (Z.div_mod n 2 ltac:(lia)). lia.
  - nia.
Qed.

(** [fermat_factorization] ends: it returns or raises within its fuel. *)
Lemma fermat_factorization_ends (n max_iterations : Z) :
  fermat_factorization n max_iterations <> Fuel.
Proof.
  unfold fermat_factorization.
  destruct (n mod 2 =? 0); [discriminate|].
  destruct (math_ceil_sqrt n) as [a0| |] eqn:Ha0; cbn [res_bind];
    [|discriminate|].
  - cbv zeta.
    match goal with
    | |- res_bind ?w _ <> _ => destruct w as [[[[a b_sq] it] returned]| |] eqn:Hw
    end; cbn [res_bind]; [discriminate | discriminate |].
    exfalso. revert Hw.
    apply (while_not_fuel
      (fun _ : Z * Z * Z * option (Z * Z) => True)
      (fun s : Z * Z * Z * option (Z * Z) =>
         match snd s with
         | Some _ => O
         | None => Z.to_nat (max_iterations - snd (fst s))
         end)).
    + intros [[[a b_sq] it] returned] _ Hc. cbv beta iota in Hc.
      destruct returned as [pq|]; [discriminate|].
      apply Z.ltb_lt in Hc. cbv beta iota. unfold math_int_sqrt.
      destruct (b_sq <? 0); cbn [res_bind]; [exact I|].
      destruct (Z.sqrt b_sq * Z.sqrt b_sq =? b_sq); cbn [fst snd];
        (split; [exact I | lia]).
    + exact I.
    + cbn [fst snd]. lia.
  - unfold math_ceil_sqrt in Ha0. destruct (n <? 0); discriminate.
Qed.

(** An odd composite number is a difference of squares [a^2 - b^2] with
    [a] below [(n + 1) / 2]. *)
Lemma odd_composite_square (n d : Z) :
  Z.odd n = true -> 1 < d < n -> (d | n) ->
  exists a : Z, 0 <= a /\ 2 * a < n + 1 /\ n <= a * a /\ is_square (a * a - n).
Proof.
  intros Hodd Hd [e He].
  assert (He1 : 1 < e).
  { destruct (Z_lt_le_dec 1 e) as [?|Hle]; [assumption|]. exfalso. nia. }
  rewrite He, Z.odd_mul in Hodd. apply andb_true_iff in Hodd.
  destruct Hodd as [Heo Hdo].
  pose proof (Zmod_odd e) as Hem. rewrite Heo in Hem.
  pose proof (Zmod_odd d) as Hdm. rewrite Hdo in Hdm.
  pose proof (Z.div_mod e 2 ltac:(lia)) as Hed.
  pose proof (Z.div_mod d 2 ltac:(lia)) as Hdd.
  set (u := d / 2) in *. set (v := e / 2) in *.
  assert (Hd' : d = 2 * u + 1) by lia.
  assert (He' : e = 2 * v + 1) by lia.
  exists (u + v + 1).
  assert (Hsq : (u + v + 1) * (u + v + 1) - n = (v - u) * (v - u)).
  { rewrite He, Hd', He'. ring. }
  split; [lia|]. split; [nia|]. split.
  - pose proof (Z.square_nonneg (v - u)). unfold Z.square in *. lia.
  - exists (v - u). lia.
Qed.

(** For [n >= 2] the pair returned holds positive factors, and it holds the
    factor 1 exactly when [n] is prime. *)
Lemma fermat_factorization_trivial (n max_iterations p q : Z) :
  2 <= n ->
  fermat_factorization n max_iterations = Ret (Some (p, q)) ->
  1 <= p /\ 1 <= q /\ ((p = 1 \/ q = 1) <-> Z.prime n).
Proof.
  intros Hn Hr.
  pose proof (fermat_factorization_product _ _ _ _ Hr) as Hpq.
  assert (Hprime_one : 1 <= p -> 1 <= q -> Z.prime n -> p = 1 \/ q = 1).
  { intros Hp Hq [_ Hpr].
    destruct (Z.eq_dec p 1) as [?|Hp1]; [left; assumption|].
    destruct (Z.eq_dec q 1) as [?|Hq1]; [right; assumption|].
    exfalso. apply (Hpr p); [nia|]. exists q. lia. }
  apply fermat_factorization_pair in Hr.
  destruct Hr as [(He & -> & ->) |
                  (Hne & a0 & a & b & Ha0 & Ha & Hb & Hbb & -> & -> & Hno)].
  - assert (Hq : 1 <= n / 2) by lia.
    split; [lia|]. split; [assumption|]. split.
    + intros [?|Hq1]; [lia|].
      assert (n = 2) by lia. subst n. exact Z.prime_2.
    + apply Hprime_one; lia.
  - apply math_ceil_sqrt_spec in Ha0.
    destruct Ha0 as (_ & Ha00 & Ha0n & Ha0p). specialize (Ha0p ltac:(lia)).
    assert (Hodd : Z.odd n = true).
    { pose proof (Zmod_odd n) as Hm. destruct (Z.odd n); [reflexivity|lia]. }
    assert (Hp : 1 <= a - b) by nia.
    assert (Hq : 1 <= a + b) by lia.
    split; [assumption|]. split; [assumption|]. split.
    + intros Hone.
      assert (Hp1 : a - b = 1) by nia.
      split; [lia|]. intros d Hd Hdiv.
      destruct (odd_composite_square n d Hodd Hd Hdiv)
        as (a' & Ha'0 & Ha'lt & Ha'n & Hsq).
      apply (Hno a'); [|assumption].
      split; [|nia].
      destruct (Z_le_gt_dec a0 a') as [?|Hgt]; [assumption|exfalso].
      assert (a' * a' <= (a0 - 1) * (a0 - 1)).
      { apply Z.mul_le_mono_nonneg; lia. }
      lia.
    + apply Hprime_one; assumption.
Qed.

(** ** Success of Pollard's rho and of Fermat's method *)

(** C2 (as amended).  For every integer [n >= 2]: whatever list
    [pollard_rho_factorize] returns is non-empty, has product [n] and holds
    no factor 1; whatever pair [fermat_factorization] returns has product
    [n] and positive members; and for [n < 2^52], where the double square
    roots are the exact ones, the pair holds the factor 1 exactly when [n]
    is prime. *)
Theorem factorization_success_sound (n : Z) (Hn : 2 <= n) :
  (forall (depth : nat) (g g' : rng) (l : list Z),
     pollard_rho_factorize depth n g = Ret (l, g') ->
     l <> [] /\ product l = n /\ Forall (fun f => f <> 1) l) /\
  (forall max_iterations p q : Z,
     fermat_factorization n max_iterations = Ret (Some (p, q)) ->
     p * q = n /\ 1 <= p /\ 1 <= q /\
     (n < 2 ^ 52 -> ((p = 1 \/ q = 1) <-> Z.prime n))).
Proof.
  split.
  - intros depth g g' l Hr.
    destruct (pollard_rho_factorize_sound depth n g g' l ltac:(lia) Hr)
      as [Hp Hf].
    split; [|split].
    + intros ->. rewrite product_nil in Hp. lia.
    + assumption.
    + eapply Forall_impl; [|exact Hf]. cbv beta. intros; lia.
  - intros max_iterations p q Hr. split.
    + apply (fermat_factorization_product n max_iterations). assumption.
    + destruct (fermat_factorization_trivial n max_iterations p q Hn Hr)
        as (Hp & Hq & Hone).
      split; [exact Hp|]. split; [exact Hq|]. intros _. exact Hone.
Qed.

Lemma factorization_success_sound_witness :
  (forall (depth : nat) (g g' : rng) (l : list Z),
     pollard_rho_factorize depth 15 g = Ret (l, g') ->
     l <> [] /\ product l = 15 /\ Forall (fun f => f <> 1) l) /\
  (forall max_iterations p q : Z,
     fermat_factorization 15 max_iterations = Ret (Some (p, q)) ->
     p * q = 15 /\ 1 <= p /\ 1 <= q /\
     (15 < 2 ^ 52 -> ((p = 1 \/ q = 1) <-> Z.prime 15))).
Proof. apply (factorization_success_sound 15). lia. Defined.

(** C2 as stated fails for Fermat's method: on a prime the search ends at
    [a = (n + 1) / 2] and the pair is [(1, n)]; on 2 it is [(2, 1)]. *)
Lemma fermat_factorization_trivial_factor :
  2 <= 3 /\
  fermat_factorization 3 100000 = Ret (Some (1, 3)) /\
  fermat_factorization 2 100000 = Ret (Some (2, 1)).
Proof.
  split; [lia|]. split; vm_compute; reflexivity.
Qed.

(** ** Inputs below 2 *)

Lemma below_two_guarded (n : Z) (depth : nat) (g : rng) :
  n < 2 ->
  trial_division n = Ret [] /\
  pollard_rho_factorize (S depth) n g = Ret ([], g).
Proof.
  intros Hn. split.
  - apply trial_division_below_two. assumption.
  - apply pollard_rho_factorize_below_two. assumption.
Qed.

(** C5 fails on the code for Fermat's method, which has no guard for
    [n < 2] where [trial_division] and [pollard_rho_factorize] have one: it
    returns the pairs [(1, 1)] for 1 and [(2, 0)] for 0, and it raises on
    -1, where [math.sqrt] is given a negative number. *)
Theorem fermat_factorization_below_two :
  fermat_factorization 1 100000 = Ret (Some (1, 1)) /\
  fermat_factorization 0 100000 = Ret (Some (2, 0)) /\
  fermat_factorization (-1) 100000 = Exn "math domain error"%string /\
  fermat_factorization_wrapper 1 = Ret (Some [1; 1]).
Proof.
  repeat apply conj; vm_compute; reflexivity.
Qed.

(** ** The runner *)

Lemma nonempty_result_spec (factors : option (list Z)) :
  nonempty_result factors = true <->
  exists f l, factors = Some (f :: l).
Proof.
  unfold nonempty_result. destruct factors as [[|f l]|].
  - split; [discriminate | intros (f & l & H); discriminate].
  - split; [intros _; eauto|]. intros _.
    apply Z.ltb_lt. cbn [List.length]. lia.
  - split; [discriminate | intros (f & l & H); discriminate].
Qed.

(** The three ways [benchmark_algorithm] can come out. *)
Lemma benchmark_algorithm_cases (algorithm_func : Z -> res (option (list Z)))
    (num : Z) (name : string) (t0 t1 : Q) :
  match algorithm_func num with
  | Ret factors =>
      benchmark_algorithm algorithm_func num name t0 t1 =
      if nonempty_result factors
      then Ret (new_result num name factors (t1 - t0)%Q true, [])
      else Ret (new_result num name None (t1 - t0)%Q false, [])
  | Exn e =>
      benchmark_algorithm algorithm_func num name t0 t1 =
      Ret (new_result num name None (t1 - t0)%Q false,
           [("Error in " ++ name ++ ": " ++ e)%string])
  | Fuel => benchmark_algorithm algorithm_func num name t0 t1 = Fuel
  end.
Proof.
  unfold benchmark_algorithm.
  destruct (algorithm_func num) as [factors|e|]; cbn [res_bind try_except].
  - cbv zeta. destruct (nonempty_result factors); reflexivity.
  - reflexivity.
  - reflexivity.
Qed.




(** ** Results and their verification *)

Lemma verify_factors_spec (r : FactorizationResult) :
  verify_factors r = true <->
  factors r <> [] /\ product (factors r) = number r.
Proof.
  unfold verify_factors. destruct (factors r) as [|f l].
  - split; [discriminate | intros [H _]; contradiction].
  - rewrite Z.eqb_eq. split.
    + intros H. split; [discriminate | assumption].
    + intros [_ H]. assumption.
Qed.

Lemma benchmark_algorithm_success
    (algorithm_func : Z -> res (option (list Z)))
    (num : Z) (name : string) (t0 t1 : Q)
    (r : FactorizationResult) (out : list string) :
  benchmark_algorithm algorithm_func num name t0 t1 = Ret (r, out) ->
  number r = num /\
  (success r = true <-> factors r <> []) /\
  (success r = true -> algorithm_func num = Ret (Some (factors r))).
Proof.
  intros Hb.
  pose proof (benchmark_algorithm_cases algorithm_func num name t0 t1) as Hc.
  destruct (algorithm_func num) as [fs|e|]; rewrite Hc in Hb.
  - destruct (nonempty_result fs) eqn:Hne; injection Hb as <- _;
      cbn [new_result number success factors].
    + apply nonempty_result_spec in Hne. destruct Hne as (f & l & ->).
      split; [reflexivity|]. split; [|reflexivity].
      split; [discriminate | reflexivity].
    + split; [reflexivity|]. split; [|discriminate].
      split; [discriminate | intros H; contradiction].
  - injection Hb as <- _. cbn [new_result number success factors].
    split; [reflexivity|]. split; [|discriminate].
    split; [discriminate | intros H; contradiction].
  - discriminate.
Qed.

(** The algorithms of the suite answer with factors of the right product. *)
Lemma suite_product (f : Z -> res (option (list Z))) (num : Z) (l : list Z) :
  f num = trial_division_algorithm num \/
  (exists depth g, f num = pollard_rho_algorithm depth g num) \/
  f num = fermat_factorization_wrapper num ->
  f num = Ret (Some l) -> l <> [] -> product l = num.
Proof.
  intros [Hf | [(depth & g & Hf) | Hf]] Hr Hl; rewrite Hf in Hr.
  - unfold trial_division_algorithm in Hr.
    destruct (Z_lt_le_dec num 2) as [Hlt|Hge].
    + rewrite trial_division_below_two in Hr by assumption.
      cbn [res_bind] in Hr. injection Hr as <-. contradiction.
    + destruct (trial_division_factors num Hge) as (l0 & Hl0 & Hp & _).
      rewrite Hl0 in Hr. cbn [res_bind] in Hr. injection Hr as <-. exact Hp.
  - unfold pollard_rho_algorithm in Hr.
    destruct (pollard_rho_factorize depth num g) as [[l0 g']| |] eqn:Hp;
      try discriminate.
    cbn [res_bind] in Hr. injection Hr as <-.
    destruct (Z_lt_le_dec num 1) as [Hlt|Hge].
    + destruct depth as [|depth]; [discriminate|].
      rewrite pollard_rho_factorize_below_two in Hp by lia.
      injection Hp as <- _. contradiction.
    + apply (pollard_rho_factorize_sound depth num g g' l0 Hge Hp).
  - unfold fermat_factorization_wrapper in Hr.
    destruct (fermat_factorization num 100000) as [[[p q]|]| |] eqn:Hfe;
      try discriminate.
    cbn [res_bind] in Hr. injection Hr as <-.
    rewrite !product_cons, product_nil.
    apply fermat_factorization_product in Hfe. lia.
Qed.

(** C6 (as amended).  A result of [benchmark_algorithm] carries the number
    it was run on and has [success] true exactly when its factor list is
    non-empty; [verify_factors()] is true exactly when the list is non-empty
    and its product is the number; and when the wrapped function is one of
    the suite (trial division, Pollard's rho, the Fermat wrapper), success
    implies that the product of the factors is the number. *)
Theorem benchmark_result_invariant
    (algorithm_func : Z -> res (option (list Z)))
    (num : Z) (name : string) (t0 t1 : Q)
    (r : FactorizationResult) (out : list string)
    (Hrun : benchmark_algorithm algorithm_func num name t0 t1 = Ret (r, out)) :
  number r = num /\
  (success r = true <-> factors r <> []) /\
  (verify_factors r = true <->
   factors r <> [] /\ product (factors r) = number r) /\
  (algorithm_func num = trial_division_algorithm num \/
   (exists depth g, algorithm_func num = pollard_rho_algorithm depth g num) \/
   algorithm_func num = fermat_factorization_wrapper num ->
   success r = true ->
   product (factors r) = number r /\ verify_factors r = true).
Proof.
  destruct (benchmark_algorithm_success _ _ _ _ _ _ _ Hrun)
    as (Hnum & Hsucc & Hret).
  split; [assumption|]. split; [assumption|].
  split; [apply verify_factors_spec|].
  intros Hsuite Hs.
  assert (Hp : product (factors r) = number r).
  { rewrite Hnum. apply (suite_product algorithm_func num).
    - assumption.
    - apply Hret. assumption.
    - apply Hsucc. assumption. }
  split; [assumption|]. apply verify_factors_spec.
  split; [apply Hsucc; assumption | assumption].
Qed.

Lemma benchmark_result_invariant_witness :
  exists r out,
    benchmark_algorithm trial_division_algorithm 15 "Trial Division"%string 2 5
    = Ret (r, out) /\
    number r = 15 /\ success r = true /\
    product (factors r) = number r /\ verify_factors r = true.
Proof.
  assert (Hrun :
    benchmark_algorithm trial_division_algorithm 15 "Trial Division"%string 2 5
    = Ret (new_result 15 "Trial Division"%string (Some [3; 5]) (5 - 2)%Q true,
           [])) by reflexivity.
  destruct (benchmark_result_invariant _ _ _ _ _ _ _ Hrun)
    as (Hnum & Hsucc & _ & Hsuite).
  eexists; eexists. split; [exact Hrun|].
  split; [exact Hnum|]. split; [reflexivity|].
  apply Hsuite; [left; reflexivity | reflexivity].
Defined.

(** C6 as stated fails for a wrapped function that answers wrongly: the
    answer [[2, 2]] for 5 is recorded with [success] true. *)
Lemma benchmark_wrong_answer :
  exists r out,
    benchmark_algorithm wrong_algorithm 5 "Wrong"%string 0 1 = Ret (r, out) /\
    success r = true /\ product (factors r) <> number r.
Proof.
  eexists; eexists. split; [reflexivity|].
  split; [reflexivity|]. vm_compute. discriminate.
Qed.

(** ** The speedup column *)

Lemma speedup_of_computed (base_time : Q) (result : FactorizationResult) :
  ~ (base_time == 0)%Q -> success result = true ->
  (0 < time_taken result)%Q ->
  speedup_of (Some base_time) result
  = Speedup (base_time / time_taken result)%Q.
Proof.
  intros Hb Hs Ht. unfold speedup_of, truthy_time.
  destruct (Qeq_bool base_time 0) eqn:Hz.
  - apply Qeq_bool_iff in Hz. contradiction.
  - rewrite Hs. cbn [negb andb].
    destruct (Qle_bool (time_taken result) 0) eqn:Hle; [|reflexivity].
    apply Qle_bool_iff in Hle. exfalso.
    apply (Qlt_not_le _ _ Ht). assumption.
Qed.

Lemma speedup_of_not_applicable (baseline : option Q)
    (result : FactorizationResult) :
  baseline = None \/ (exists b, baseline = Some b /\ (b == 0)%Q) \/
  success result = false \/ (time_taken result <= 0)%Q ->
  speedup_of baseline result = NotApplicable.
Proof.
  unfold speedup_of, truthy_time.
  intros [-> | [(b & -> & Hb) | [Hs | Ht]]].
  - reflexivity.
  - apply Qeq_bool_iff in Hb. rewrite Hb. reflexivity.
  - destruct baseline as [b|]; [|reflexivity].
    rewrite Hs, andb_false_r. reflexivity.
  - destruct baseline as [b|]; [|reflexivity].
    apply Qle_bool_iff in Ht. rewrite Ht, andb_false_r. reflexivity.
Qed.

(** C9 (as amended).  In the summary table the row of an algorithm shows
    the speedup [baseline / time] when trial division succeeded with an
    elapsed time other than zero and the algorithm succeeded with positive
    elapsed time; it shows "not applicable" when there is no trial division
    result, when trial division failed or took exactly zero time, when the
    algorithm failed, or when its time is zero or negative. *)
Theorem summary_speedup (number_results : results_dict)
    (algo_name : string) (result : FactorizationResult)
    (Hin : In (algo_name, result) number_results) :
  In (algo_name, success result, time_taken result,
      speedup_of (baseline_of number_results) result)
     (summary_rows number_results) /\
  (forall base,
     dict_get "trial_division"%string number_results = Some base ->
     success base = true -> ~ (time_taken base == 0)%Q ->
     success result = true -> (0 < time_taken result)%Q ->
     speedup_of (baseline_of number_results) result
     = Speedup (time_taken base / time_taken result)%Q) /\
  (dict_get "trial_division"%string number_results = None \/
   (exists base,
      dict_get "trial_division"%string number_results = Some base /\
      (success base = false \/ (time_taken base == 0)%Q)) \/
   success result = false \/ (time_taken result <= 0)%Q ->
   speedup_of (baseline_of number_results) result = NotApplicable).
Proof.
  split; [|split].
  - unfold summary_rows. cbv zeta.
    apply (in_map (fun '(algo_name, result) =>
                     (algo_name, success result, time_taken result,
                      speedup_of (baseline_of number_results) result))
                  number_results (algo_name, result) Hin).
  - intros base Hget Hsb Htb Hs Ht. unfold baseline_of.
    rewrite Hget, Hsb. apply speedup_of_computed; assumption.
  - intros H. apply speedup_of_not_applicable. unfold baseline_of.
    destruct H as [-> | [(base & -> & [Hsb | Htb]) | [Hs | Ht]]].
    + left. reflexivity.
    + left. rewrite Hsb. reflexivity.
    + destruct (success base); [|left; reflexivity].
      right. left. exists (time_taken base). split; [reflexivity|assumption].
    + right. right. left. assumption.
    + right. right. right. assumption.
Qed.

Lemma summary_speedup_witness :
  In ("pollard_rho"%string, true, 1%Q, NotApplicable)
     (summary_rows zero_baseline_results).
Proof.
  destruct (summary_speedup zero_baseline_results "pollard_rho"%string
              (new_result 15 "Pollard's Rho"%string (Some [3; 5]) 1%Q true))
    as (Hrow & _ & _).
  - right. left. reflexivity.
  - exact Hrow.
Defined.

(** C9 as stated fails when trial division succeeded in zero measured time:
    the baseline 0.0 counts as absent, so the speedup of an algorithm that
    succeeded with positive time is not computed. *)
Lemma speedup_zero_baseline :
  exists base other,
    dict_get "trial_division"%string zero_baseline_results = Some base /\
    dict_get "pollard_rho"%string zero_baseline_results = Some other /\
    success base = true /\ success other = true /\
    (0 < time_taken other)%Q /\
    speedup_of (baseline_of zero_baseline_results) other = NotApplicable /\
    speedup_of (baseline_of zero_baseline_results) other
    <> Speedup (time_taken base / time_taken other)%Q.
Proof.
  eexists; eexists.
  split; [reflexivity|]. split; [reflexivity|].
  split; [reflexivity|]. split; [reflexivity|].
  split; [reflexivity|]. split; [reflexivity|].
  discriminate.
Qed.

(** * Further properties of the classical algorithms *)

(** ** [pollard_rho] *)

Lemma pollard_rho_returns (n max_iterations : Z) (g : rng) (Hn : 3 <= n) :
  exists (r : option Z) (g' : rng),
    pollard_rho n max_iterations g = Ret (r, g') /\
    (n mod 2 = 0 -> r = Some 2 /\ g' = g) /\
    (forall d : Z, r = Some d -> 1 <= d < n /\ (d | n)).
Proof.
  assert (Hret : exists r g', pollard_rho n max_iterations g = Ret (r, g')).
  { destruct (Z.odd n) eqn:Hodd.
    - rewrite pollard_rho_odd by assumption. cbv zeta. eauto.
    - rewrite pollard_rho_even by (rewrite Zmod_odd, Hodd; reflexivity). eauto. }
  destruct Hret as (r & g' & Hr). exists r, g'.
  split; [assumption|]. split.
  - intros He. rewrite pollard_rho_even in Hr by assumption.
    injection Hr as <- <-. split; reflexivity.
  - intros d ->.
    exact (pollard_rho_result n max_iterations g g' (Some d) Hn Hr).
Qed.

(** X1.  On every [n >= 3] and for every budget and every draw,
    [pollard_rho] returns: the factor 2 without drawing when [n] is even,
    and otherwise [None] or a divisor of [n] from 1 to [n - 1]. *)
Theorem pollard_rho_total (n max_iterations : Z) (g : rng) (Hn : 3 <= n) :
  exists (r : option Z) (g' : rng),
    pollard_rho n max_iterations g = Ret (r, g') /\
    (n mod 2 = 0 -> r = Some 2 /\ g' = g) /\
    (forall d : Z, r = Some d -> 1 <= d < n /\ (d | n)).
Proof. exact (pollard_rho_returns n max_iterations g Hn). Qed.

Lemma pollard_rho_total_witness :
  exists (r : option Z) (g' : rng),
    pollard_rho 15 100000 (const_rng 0 0) = Ret (r, g') /\
    (15 mod 2 = 0 -> r = Some 2 /\ g' = const_rng 0 0) /\
    (forall d : Z, r = Some d -> 1 <= d < 15 /\ (d | 15)).
Proof. apply (pollard_rho_total 15 100000 (const_rng 0 0)). lia. Defined.

(** ** [pollard_rho_factorize] *)

Lemma trial_division_returns (n : Z) : exists l, trial_division n = Ret l.
Proof.
  destruct (Z_lt_le_dec n 2) as [Hlt|Hge].
  - exists []. apply trial_division_below_two. assumption.
  - destruct (trial_division_factors n Hge) as (l & Hl & _). eauto.
Qed.

Lemma trial_division_sorted (n : Z) (l : list Z) :
  trial_division n = Ret l -> Sorted Z.le l /\ Forall Z.prime l.
Proof.
  intros Hl. destruct (Z_lt_le_dec n 2) as [Hlt|Hge].
  - rewrite trial_division_below_two in Hl by assumption.
    injection Hl as <-. split; constructor.
  - destruct (trial_division_factors n Hge) as (l0 & Hl0 & _ & Hp & Hs).
    rewrite Hl0 in Hl. injection Hl as <-. split; assumption.
Qed.

(** X2.  Whatever list [pollard_rho_factorize] returns is in ascending
    order. *)
Theorem pollard_rho_factorize_sorted (depth : nat) :
  forall (n : Z) (g g' : rng) (l : list Z),
    pollard_rho_factorize depth n g = Ret (l, g') -> Sorted Z.le l.
Proof.
  destruct depth as [|depth]; intros n g g' l Hr; [discriminate|].
  cbn [pollard_rho_factorize] in Hr.
  destruct (n <? 2). { injection Hr as <- _. constructor. }
  destruct (n =? 2). { injection Hr as <- _. repeat constructor. }
  destruct (forallb _ _ && (n <? PRIME_THRESHOLD)).
  { injection Hr as <- _. repeat constructor. }
  cbv zeta in Hr.
  destruct (pollard_rho n 100000 g) as [[factor g1]| |]; try discriminate.
  cbn [res_bind] in Hr. cbv beta iota in Hr.
  assert (Hfallback : forall l1 g2,
    (if n <? 10000 then l0 <- trial_division n ;; Ret (l0, g1)
     else Ret ([n], g1)) = Ret (l1, g2) -> Sorted Z.le l1).
  { intros l1 g2 Hf. destruct (n <? 10000).
    - destruct (trial_division n) as [l0| |] eqn:Htd; try discriminate.
      cbn [res_bind] in Hf. injection Hf as <- _.
      apply (trial_division_sorted n). assumption.
    - injection Hf as <- _. repeat constructor. }
  destruct factor as [d|]; [|apply (Hfallback l g'); assumption].
  destruct (d =? n); [apply (Hfallback l g'); assumption|].
  destruct (pollard_rho_factorize depth d g1) as [[l1 g2]| |];
    try discriminate.
  cbn [res_bind] in Hr. cbv beta iota in Hr.
  destruct (pollard_rho_factorize depth (n / d) g2) as [[l2 g3]| |];
    try discriminate.
  cbn [res_bind] in Hr. cbv beta iota in Hr.
  injection Hr as <- _. apply sorted_Sorted.
Qed.

Lemma pollard_rho_factorize_sorted_witness :
  Sorted Z.le [2; 2; 2; 5; 5; 5].
Proof.
  eapply (pollard_rho_factorize_sorted 20 1000 (const_rng 0 0)).
  vm_compute. reflexivity.
Defined.

Lemma pollard_rho_factorize_no_exn (depth : nat) :
  forall (n : Z) (g : rng) (e : exn),
    pollard_rho_factorize depth n g <> Exn e.
Proof.
  induction depth as [|depth IH]; intros n g e; [discriminate|].
  cbn [pollard_rho_factorize].
  destruct (Z.ltb_spec n 2) as [?|Hn2]; [discriminate|].
  destruct (Z.eqb_spec n 2) as [?|Hne]; [discriminate|].
  destruct (forallb _ _ && (n <? PRIME_THRESHOLD)); [discriminate|].
  cbv zeta.
  destruct (pollard_rho_returns n 100000 g ltac:(lia)) as (r & g1 & Hr & _).
  rewrite Hr. cbn [res_bind]. cbv beta iota.
  assert (Hfallback :
    (if n <? 10000 then l0 <- trial_division n ;; Ret (l0, g1)
     else Ret ([n], g1)) <> Exn e).
  { destruct (n <? 10000); [|discriminate].
    destruct (trial_division_returns n) as (l0 & ->). discriminate. }
  destruct r as [d|]; [|assumption].
  destruct (d =? n); [assumption|].
  destruct (pollard_rho_factorize depth d g1) as [[l1 g2]|e1|] eqn:H1;
    cbn [res_bind]; [|exfalso; apply (IH d g1 e1); assumption|discriminate].
  cbv beta iota.
  destruct (pollard_rho_factorize depth (n / d) g2) as [[l2 g3]|e2|] eqn:H2;
    cbn [res_bind]; [discriminate|exfalso; apply (IH (n / d) g2 e2); assumption
                     |discriminate].
Qed.

(** X3.  For [n < 2^1023], an integer that [n ** 0.5] can turn into a
    double, [pollard_rho_factorize] raises no exception of its own, whatever
    the draws: [random.randint] is never given an empty range and nothing is
    divided by zero.  The one way left not to return is to exhaust the
    nesting of the calls, [RecursionError] in CPython and [Fuel] here. *)
Theorem pollard_rho_factorize_no_exception (depth : nat) (n : Z) (g : rng)
    (e : exn) (Hrange : n < 2 ^ 1023) :
  pollard_rho_factorize depth n g <> Exn e.
Proof. exact (pollard_rho_factorize_no_exn depth n g e). Qed.

Lemma pollard_rho_factorize_no_exception_witness :
  pollard_rho_factorize 20 1000 (const_rng 0 0)
  <> Exn "empty range in randrange"%string.
Proof.
  apply (pollard_rho_factorize_no_exception 20 1000 (const_rng 0 0)).
  reflexivity.
Defined.

(** The divisor check of [pollard_rho_factorize] decides primality below a
    million. *)
Lemma prime_check_exact (n : Z) :
  3 <= n < PRIME_THRESHOLD ->
  (forallb (fun i => negb (n mod i =? 0))
     (range 2 (Z.min (int_sqrt n + 1) SMALL_PRIME_LIMIT)) = true
   <-> Z.prime n).
Proof.
  unfold PRIME_THRESHOLD, SMALL_PRIME_LIMIT, int_sqrt. intros Hn.
  pose proof (Z.sqrt_spec n ltac:(lia)) as Hs. cbv zeta in Hs.
  pose proof (Z.sqrt_nonneg n) as Hs0.
  assert (Hs1 : Z.sqrt n < 1000).
  { destruct (Z_lt_le_dec (Z.sqrt n) 1000) as [?|Hge]; [assumption|].
    exfalso. nia. }
  rewrite Z.min_l by lia.
  rewrite forallb_forall. split.
  - intros Hall. apply (no_divisor_sqrt_prime (Z.sqrt n + 1)); try lia.
    intros d Hd Hdiv.
    specialize (Hall d ltac:(apply In_range; lia)).
    apply negb_true_iff, Z.eqb_neq in Hall. apply Hall.
    apply Z.mod_divide; [lia | assumption].
  - intros [_ Hp] i Hi. apply In_range in Hi.
    apply negb_true_iff, Z.eqb_neq. intros Hm.
    apply (Hp i); [nia|]. apply Z.mod_divide; [lia | assumption].
Qed.

(** X4.  A prime below [PRIME_THRESHOLD] is returned as it is, without a
    single random draw. *)
Theorem pollard_rho_factorize_prime (depth : nat) (n : Z) (g : rng)
    (Hp : Z.prime n) (Hn : n < PRIME_THRESHOLD) :
  pollard_rho_factorize (S depth) n g = Ret ([n], g).
Proof.
  pose proof (Z.prime_ge_2 n Hp) as H2.
  cbn [pollard_rho_factorize].
  destruct (Z.ltb_spec n 2) as [?|_]; [lia|].
  destruct (Z.eqb_spec n 2) as [->|Hne]; [reflexivity|].
  destruct (Z.ltb_spec n PRIME_THRESHOLD) as [_|?]; [|lia].
  rewrite (proj2 (prime_check_exact n ltac:(lia)) Hp). reflexivity.
Qed.

Lemma pollard_rho_factorize_prime_witness :
  pollard_rho_factorize 1 999983 (const_rng 0 0) = Ret ([999983], const_rng 0 0).
Proof.
  apply (pollard_rho_factorize_prime 0 999983 (const_rng 0 0)).
  - apply (prime_by_trial 999983 1000); [lia | lia | lia |].
    vm_compute. reflexivity.
  - reflexivity.
Defined.

(** X5.  Below 10000, where the fallback is trial division, whatever
    [pollard_rho_factorize] returns holds primes only. *)
Theorem pollard_rho_factorize_small (depth : nat) :
  forall (n : Z) (g g' : rng) (l : list Z),
    n < 10000 ->
    pollard_rho_factorize depth n g = Ret (l, g') -> Forall Z.prime l.
Proof.
  induction depth as [|depth IH]; intros n g g' l Hn Hr; [discriminate|].
  cbn [pollard_rho_factorize] in Hr.
  destruct (Z.ltb_spec n 2) as [?|Hn2]. { injection Hr as <- _. constructor. }
  destruct (Z.eqb_spec n 2) as [->|Hne].
  { injection Hr as <- _. constructor; [exact Z.prime_2 | constructor]. }
  destruct (forallb _ _) eqn:Hall; cbn [andb] in Hr.
  { destruct (Z.ltb_spec n PRIME_THRESHOLD) as [Hlt|Hge].
    - injection Hr as <- _. constructor; [|constructor].
      apply (prime_check_exact n); [lia | assumption].
    - unfold PRIME_THRESHOLD in Hge. lia. }
  cbv zeta in Hr.
  destruct (pollard_rho n 100000 g) as [[factor g1]| |] eqn:Hrho;
    try discriminate.
  cbn [res_bind] in Hr. cbv beta iota in Hr.
  pose proof (pollard_rho_result n 100000 g g1 factor ltac:(lia) Hrho) as Hf.
  destruct (Z.ltb_spec n 10000) as [_|?]; [|lia].
  assert (Hfallback : forall l1 g2,
    (l0 <- trial_division n ;; Ret (l0, g1)) = Ret (l1, g2) ->
    Forall Z.prime l1).
  { intros l1 g2 Hfb.
    destruct (trial_division n) as [l0| |] eqn:Htd; try discriminate.
    cbn [res_bind] in Hfb. injection Hfb as <- _.
    apply (trial_division_sorted n). assumption. }
  destruct factor as [d|]; [|apply (Hfallback l g'); assumption].
  destruct Hf as [Hd Hdiv].
  destruct (Z.eqb_spec d n) as [?|_]; [lia|].
  destruct (pollard_rho_factorize depth d g1) as [[l1 g2]| |] eqn:H1;
    try discriminate.
  cbn [res_bind] in Hr. cbv beta iota in Hr.
  destruct (pollard_rho_factorize depth (n / d) g2) as [[l2 g3]| |] eqn:H2;
    try discriminate.
  cbn [res_bind] in Hr. cbv beta iota in Hr.
  injection Hr as <- _. cbn [app].
  eapply Permutation_Forall; [apply Permutation_sym, sorted_perm|].
  apply Forall_app. split.
  - apply (IH d g1 g2); [lia | assumption].
  - apply (IH (n / d) g2 g3); [|assumption].
    destruct Hdiv as [k Hk]. subst n. rewrite Z.div_mul by lia. nia.
Qed.

Lemma pollard_rho_factorize_small_witness : Forall Z.prime [2; 2; 2; 5; 5; 5].
Proof.
  eapply (pollard_rho_factorize_small 20 1000 (const_rng 0 0)).
  - lia.
  - vm_compute. reflexivity.
Defined.

(** ** [trial_division] as a primality test *)

Lemma product_one_nil (l : list Z) :
  Forall (fun f => 2 <= f) l -> product l = 1 -> l = [].
Proof.
  intros Hf Hp. destruct l as [|x l]; [reflexivity|].
  inversion Hf as [|? ? Hx Hl]; subst.
  rewrite product_cons in Hp. pose proof (product_pos l Hl). nia.
Qed.

(** X6.  For [n >= 2], [trial_division(n)] is the one-element list [[n]]
    exactly when [n] is prime. *)
Theorem trial_division_prime_iff (n : Z) (Hn : 2 <= n) :
  trial_division n = Ret [n] <-> Z.prime n.
Proof.
  destruct (trial_division_factors n Hn) as (l & Hl & Hp & Hpr & _).
  rewrite Hl. split.
  - intros H. injection H as ->. inversion Hpr; assumption.
  - intros Hprime. f_equal.
    destruct l as [|x l]; [rewrite product_nil in Hp; lia|].
    pose proof (Forall_inv Hpr) as Hx.
    pose proof (Forall_inv_tail Hpr) as Hrest.
    rewrite product_cons in Hp.
    pose proof (Z.prime_ge_2 x Hx) as Hx2.
    pose proof (Forall_prime_ge_2 l Hrest) as Hge.
    pose proof (product_pos l Hge) as Hpos.
    assert (Hxn : x = n).
    { destruct (Z.eq_dec x n) as [?|Hne]; [assumption|].
      exfalso. destruct Hprime as [_ Hno].
      apply (Hno x); [nia|]. exists (product l). lia. }
    assert (H1 : product l = 1) by nia.
    rewrite (product_one_nil l Hge H1). f_equal. assumption.
Qed.

Lemma trial_division_prime_iff_witness :
  trial_division 97 = Ret [97] <-> Z.prime 97.
Proof. apply (trial_division_prime_iff 97). lia. Defined.

(** ** [is_prime_simple] on every integer *)

(** X7.  For [n < 2^1023], an integer that [n ** 0.5] can turn into a
    double, [is_prime_simple(n)] is true exactly when [n >= 2] and no proper
    divisor of [n] is below [SMALL_PRIME_LIMIT]: a prime is never rejected,
    and a composite number is accepted exactly when all its prime factors
    are at least 1000. *)
Theorem is_prime_simple_iff (n : Z) (Hrange : n < 2 ^ 1023) :
  is_prime_simple n = true <->
  2 <= n /\
  forall d : Z, 1 < d < SMALL_PRIME_LIMIT -> d < n -> ~ (d | n).
Proof.
  unfold is_prime_simple, SMALL_PRIME_LIMIT, int_sqrt.
  destruct (Z.ltb_spec n 2) as [Hlt|Hge].
  { split; [discriminate | intros [H _]; lia]. }
  destruct (Z.eqb_spec n 2) as [->|Hne].
  { split; [|reflexivity]. intros _. split; [lia|]. intros d Hd Hd2. lia. }
  rewrite mod2_odd. destruct (Z.odd n) eqn:Hodd; cbn [negb].
  - pose proof (Z.sqrt_spec n ltac:(lia)) as Hs. cbv zeta in Hs.
    pose proof (Z.sqrt_nonneg n) as Hs0.
    destruct (existsb _ _) eqn:Hex.
    + split; [discriminate|]. intros [_ Hno]. exfalso.
      apply existsb_exists in Hex. destruct Hex as (i & Hi & Hmod).
      apply In_range_odd in Hi. destruct Hi as [Hi _].
      apply Z.eqb_eq in Hmod.
      apply (Hno i); [lia | nia |]. apply Z.mod_divide; [lia | assumption].
    + split; [|reflexivity]. intros _. split; [lia|].
      intros d Hd Hdn [e He].
      assert (He1 : 1 < e).
      { destruct (Z_lt_le_dec 1 e) as [?|Hle]; [assumption|]. exfalso. nia. }
      assert (Hsmall : exists m, 1 < m /\ m <= d /\ m * m <= n /\ (m | n)).
      { destruct (Z_le_gt_dec d e) as [Hde|Hde].
        - exists d. repeat split; try lia; [nia|]. exists e. assumption.
        - exists e. repeat split; try lia; [nia|]. exists d. lia. }
      destruct Hsmall as (m & Hm1 & Hmd & Hmm & Hmn).
      assert (Hmodd : Z.odd m = true).
      { destruct Hmn as [k Hk]. rewrite Hk, Z.odd_mul in Hodd.
        apply andb_true_iff in Hodd. apply Hodd. }
      assert (Hm3 : 3 <= m).
      { destruct (Z.eq_dec m 2) as [->|]; [discriminate|lia]. }
      assert (Hms : m <= Z.sqrt n) by (apply Z.sqrt_le_square; lia).
      assert (Htrue : existsb (fun i => n mod i =? 0)
                (range_step 3 (Z.min (Z.sqrt n + 1) 1000) 2) = true).
      { apply existsb_exists. exists m. split.
        - apply In_range_odd. split; [lia | assumption].
        - apply Z.eqb_eq. apply Z.mod_divide; [lia | assumption]. }
      rewrite Htrue in Hex. discriminate.
  - split; [discriminate|]. intros [_ Hno]. exfalso.
    apply (Hno 2); [lia | lia |].
    pose proof (Zmod_odd n) as Hm. rewrite Hodd in Hm.
    apply Z.mod_divide; [lia | assumption].
Qed.

Lemma is_prime_simple_iff_witness :
  is_prime_simple 97 = true <->
  2 <= 97 /\
  forall d : Z, 1 < d < SMALL_PRIME_LIMIT -> d < 97 -> ~ (d | 97).
Proof. apply (is_prime_simple_iff 97). reflexivity. Defined.

(** ** [fermat_factorization]: the search and its budget *)

(** The loop of [fermat_factorization] ends without raising when it starts
    at an [a0 >= 0] with [a0^2 >= n]; if it ends without a pair, the budget
    is used up. *)
Lemma fermat_loop_total (n max_iterations a0 : Z) :
  0 <= a0 -> n <= a0 * a0 ->
  exists a b_sq iteration returned,
    while (S (Z.to_nat max_iterations))
      (fun '(_, _, iteration, returned) =>
         match returned with
         | Some _ => false
         | None => iteration <? max_iterations
         end)
      (fun '(a, b_sq, iteration, _) =>
         b <- math_int_sqrt b_sq ;;
         if b * b =? b_sq then Ret (a, b_sq, iteration, Some (a - b, a + b))
         else
           let a := a + 1 in
           let b_sq := a * a - n in
           Ret (a, b_sq, iteration + 1, None))
      (a0, a0 * a0 - n, 0, None)
    = Ret (a, b_sq, iteration, returned) /\
    fermat_inv n a0 (a, b_sq, iteration, returned) /\
    (returned = None -> a0 + max_iterations <= a).
Proof.
  intros Ha0 Hn.
  destruct (while_total
    (fun s : Z * Z * Z * option (Z * Z) =>
       fermat_inv n a0 s /\
       0 <= snd (fst s) /\ fst (fst (fst s)) = a0 + snd (fst s))
    (fun s : Z * Z * Z * option (Z * Z) =>
       match snd s with
       | Some _ => O
       | None => Z.to_nat (max_iterations - snd (fst s))
       end)
    (fun '(_, _, iteration, returned) =>
       match returned with
       | Some _ => false
       | None => iteration <? max_iterations
       end)
    (fun '(a, b_sq, iteration, _) =>
       b <- math_int_sqrt b_sq ;;
       if b * b =? b_sq then Ret (a, b_sq, iteration, Some (a - b, a + b))
       else
         let a := a + 1 in
         let b_sq := a * a - n in
         Ret (a, b_sq, iteration + 1, None)))
    with (fuel := S (Z.to_nat max_iterations))
         (s := (a0, a0 * a0 - n, 0, @None (Z * Z)))
    as ([[[a b_sq] it] returned] & Hw & (Hinv & Hit & Ha) & Hc).
  - intros [[[a b_sq] it] returned] ((Hge & Hb & Hno & _) & Hit & Ha) Hc.
    cbn [fst snd] in *. cbv beta iota in Hc.
    destruct returned as [pq|]; [discriminate|].
    apply Z.ltb_lt in Hc. cbv beta iota. unfold math_int_sqrt.
    destruct (Z.ltb_spec b_sq 0) as [Hneg|Hb0]; [nia|].
    cbn [res_bind].
    destruct (Z.eqb_spec (Z.sqrt b_sq * Z.sqrt b_sq) b_sq) as [He|Hne];
      eexists; (split; [reflexivity|]); cbn [fst snd]; unfold fermat_inv.
    + split; [|lia]. split; [|lia].
      split; [assumption|]. split; [assumption|]. split; [assumption|].
      exists (Z.sqrt b_sq). pose proof (Z.sqrt_nonneg b_sq).
      repeat split; lia.
    + split; [|lia]. split; [|lia].
      split; [lia|]. split; [reflexivity|]. split; [|exact I].
      intros a' Ha'. destruct (Z.eq_dec a' a) as [->|Hneq].
      * rewrite <- Hb. apply sqrt_not_square; assumption.
      * apply Hno. lia.
  - cbn [fst snd]. unfold fermat_inv. split; [|lia].
    split; [lia|]. split; [reflexivity|]. split; [intros; lia | exact I].
  - cbn [fst snd]. lia.
  - exists a, b_sq, it, returned. cbn [fst snd] in *. cbv beta iota in Hc.
    split; [exact Hw|]. split; [assumption|].
    intros ->. apply Z.ltb_ge in Hc. lia.
Qed.

(** On an odd [n >= 0] the function returns, and [None] means that no [a]
    of the window [a0 .. a0 + max_iterations - 1] gives a square. *)
Lemma fermat_factorization_odd (n max_iterations : Z) :
  0 <= n -> n mod 2 <> 0 ->
  exists (a0 : Z) (r : option (Z * Z)),
    math_ceil_sqrt n = Ret a0 /\
    fermat_factorization n max_iterations = Ret r /\
    (r = None ->
     forall a' : Z, a0 <= a' < a0 + max_iterations ->
       ~ is_square (a' * a' - n)).
Proof.
  intros Hn Hodd. unfold fermat_factorization.
  destruct (Z.eqb_spec (n mod 2) 0) as [?|_]; [contradiction|].
  destruct (math_ceil_sqrt n) as [a0| |] eqn:Ha0.
  2,3: unfold math_ceil_sqrt in Ha0;
       destruct (Z.ltb_spec n 0); [lia | discriminate].
  pose proof (math_ceil_sqrt_spec n a0 Ha0) as (_ & Ha00 & Ha0n & _).
  destruct (fermat_loop_total n max_iterations a0 Ha00 Ha0n)
    as (a & b_sq & it & returned & Hw & Hinv & Hnone).
  exists a0, returned. split; [reflexivity|].
  cbn [res_bind]. cbv zeta. cbv zeta in Hw. rewrite Hw. cbn [res_bind].
  split; [reflexivity|].
  intros -> a' Ha'. destruct Hinv as (_ & _ & Hno & _).
  apply Hno. specialize (Hnone eq_refl). lia.
Qed.

(** An odd number that is a product [d * e] is the difference of the
    squares of [(d + e) / 2] and [(e - d) / 2]. *)
Lemma odd_pair_square (n d e : Z) :
  Z.odd n = true -> d * e = n ->
  exists a b : Z, 2 * a = d + e /\ 2 * b = e - d /\ a * a - n = b * b.
Proof.
  intros Hodd Hde. rewrite <- Hde, Z.odd_mul in Hodd.
  apply andb_true_iff in Hodd. destruct Hodd as [Hdo Heo].
  pose proof (Zmod_odd e) as Hem. rewrite Heo in Hem.
  pose proof (Zmod_odd d) as Hdm. rewrite Hdo in Hdm.
  pose proof (Z.div_mod e 2 ltac:(lia)) as Hed.
  pose proof (Z.div_mod d 2 ltac:(lia)) as Hdd.
  set (u := d / 2) in *. set (v := e / 2) in *.
  assert (Hd' : d = 2 * u + 1) by lia.
  assert (He' : e = 2 * v + 1) by lia.
  exists (u + v + 1), (v - u).
  split; [lia|]. split; [lia|]. rewrite <- Hde, Hd', He'. ring.
Qed.

(** The [a] of a factor pair of [n > 0] is not below the first [a] tried. *)
Lemma pair_after_start (n a0 a b : Z) :
  0 < n -> 0 <= a -> (a0 - 1) * (a0 - 1) < n -> a * a - n = b * b ->
  a0 <= a.
Proof.
  intros Hn Ha Ha0 Hsq.
  destruct (Z_le_gt_dec a0 a) as [?|Hgt]; [assumption|exfalso].
  assert (a * a <= (a0 - 1) * (a0 - 1)) by (apply Z.mul_le_mono_nonneg; lia).
  pose proof (Z.square_nonneg b) as Hb. unfold Z.square in Hb. lia.
Qed.

(** X8.  On an odd [n] with [0 < n < 2^52], where the double square roots
    are the exact ones, the pair [fermat_factorization] returns is the most
    balanced one: no way of writing [n] as a product of two positive
    integers has its factors closer together. *)
Theorem fermat_factorization_closest (n max_iterations p q : Z)
    (Hn : 0 < n) (Hrange : n < 2 ^ 52) (Hodd : n mod 2 = 1)
    (Hr : fermat_factorization n max_iterations = Ret (Some (p, q))) :
  1 <= p <= q /\
  forall d e : Z, 0 < d -> 0 < e -> d * e = n -> q - p <= Z.abs (e - d).
Proof.
  apply fermat_factorization_pair in Hr.
  destruct Hr as [(He & _) |
                  (_ & a0 & a & b & Ha0 & Ha & Hb & Hbb & -> & -> & Hno)];
    [lia|].
  apply math_ceil_sqrt_spec in Ha0.
  destruct Ha0 as (_ & Ha00 & Ha0n & Ha0p). specialize (Ha0p Hn).
  assert (Hoddn : Z.odd n = true).
  { pose proof (Zmod_odd n) as Hm. destruct (Z.odd n); [reflexivity|lia]. }
  split; [nia|].
  intros d e Hd He Hde.
  destruct (odd_pair_square n d e Hoddn Hde) as (a' & b' & Ha' & Hb' & Hsq).
  assert (Hge : a <= a').
  { destruct (Z_le_gt_dec a a') as [?|Hlt]; [assumption|exfalso].
    apply (Hno a').
    - split; [|lia]. apply (pair_after_start n a0 a' b'); try assumption. lia.
    - exists b'. lia. }
  assert (Hbb' : b * b <= b' * b') by nia.
  assert (Hbabs : b <= Z.abs b').
  { destruct (Z_le_gt_dec b (Z.abs b')) as [?|Hgt]; [assumption|exfalso].
    assert (Z.abs b' * Z.abs b' < b * b) by nia.
    rewrite Z.abs_square in *. lia. }
  lia.
Qed.

Lemma fermat_factorization_closest_witness :
  1 <= 7 <= 11 /\
  forall d e : Z, 0 < d -> 0 < e -> d * e = 77 -> 11 - 7 <= Z.abs (e - d).
Proof.
  apply (fermat_factorization_closest 77 100000 7 11).
  - lia.
  - reflexivity.
  - reflexivity.
  - vm_compute. reflexivity.
Defined.

(** X9.  When an odd [n < 2^52] is a product [d * e] of positive integers
    with [(d + e) / 2] less than [max_iterations] above the integer square
    root of [n], [fermat_factorization] does not give up: it returns a pair
    with product [n]. *)
Theorem fermat_factorization_finds (n max_iterations d e : Z)
    (Hrange : n < 2 ^ 52)
    (Hodd : n mod 2 = 1) (Hd : 0 < d) (He : 0 < e) (Hde : d * e = n)
    (Hbudget : (d + e) / 2 < Z.sqrt n + max_iterations) :
  exists p q : Z,
    fermat_factorization n max_iterations = Ret (Some (p, q)) /\ p * q = n.
Proof.
  assert (Hn : 0 < n) by nia.
  destruct (fermat_factorization_odd n max_iterations ltac:(lia) ltac:(lia))
    as (a0 & r & Ha0 & Hr & Hnone).
  destruct r as [[p q]|].
  - exists p, q. split; [assumption|].
    apply (fermat_factorization_product n max_iterations). assumption.
  - exfalso.
    assert (Hoddn : Z.odd n = true).
    { pose proof (Zmod_odd n) as Hm. destruct (Z.odd n); [reflexivity|lia]. }
    destruct (odd_pair_square n d e Hoddn Hde) as (a' & b' & Ha' & Hb' & Hsq).
    pose proof (math_ceil_sqrt_spec n a0 Ha0) as (_ & Ha00 & Ha0n & Ha0p).
    specialize (Ha0p Hn).
    assert (Hdiv : (d + e) / 2 = a').
    { rewrite <- Ha'. rewrite Z.mul_comm. apply Z.div_mul. lia. }
    assert (Hs : Z.sqrt n <= a0).
    { pose proof (Z.sqrt_spec n ltac:(lia)) as Hsp. cbv zeta in Hsp.
      pose proof (Z.sqrt_nonneg n).
      destruct (Z_le_gt_dec (Z.sqrt n) a0) as [?|Hgt]; [assumption|exfalso].
      assert ((a0 + 1) * (a0 + 1) <= Z.sqrt n * Z.sqrt n)
        by (apply Z.mul_le_mono_nonneg; lia).
      lia. }
    apply (Hnone eq_refl a').
    + split; [|lia]. apply (pair_after_start n a0 a' b'); try assumption. lia.
    + exists b'. lia.
Qed.

Lemma fermat_factorization_finds_witness :
  exists p q : Z,
    fermat_factorization 4757 100000 = Ret (Some (p, q)) /\ p * q = 4757.
Proof.
  apply (fermat_factorization_finds 4757 100000 67 71);
    [reflexivity | reflexivity | lia | lia | reflexivity | reflexivity].
Defined.



(** * [shors_algorithm.py]: continued fractions and periods *)

Lemma list_get_nth {A : Type} (l : list A) (i : nat) (x : A) :
  nth_error l i = Some x -> list_get l (Z.of_nat i) = Ret x.
Proof.
  intros Hx. unfold list_get.
  assert (Hlt : (i < List.length l)%nat).
  { apply nth_error_Some. rewrite Hx. discriminate. }
  destruct (Z.ltb_spec (Z.of_nat i) 0) as [?|_]; [lia|].
  destruct (Z.ltb_spec (Z.of_nat i) 0) as [?|_]; [lia|].
  destruct (Z.leb_spec (Z.of_nat (List.length l)) (Z.of_nat i)) as [?|_]; [lia|].
  cbn [orb]. rewrite Nat2Z.id, Hx. reflexivity.
Qed.

Lemma list_get_snoc {A : Type} (l : list A) (x : A) :
  list_get (l ++ [x]) (Z.of_nat (List.length l)) = Ret x.
Proof.
  apply list_get_nth. rewrite nth_error_app2 by lia.
  rewrite Nat.sub_diag. reflexivity.
Qed.

Lemma list_get_snoc2 {A : Type} (l : list A) (x y : A) :
  list_get (l ++ [x; y]) (Z.of_nat (List.length l)) = Ret x.
Proof.
  apply list_get_nth. rewrite nth_error_app2 by lia.
  rewrite Nat.sub_diag. reflexivity.
Qed.

Lemma range_from_app (c1 c2 : nat) (start : Z) :
  range_from (c1 + c2) start 1 =
  range_from c1 start 1 ++ range_from c2 (start + Z.of_nat c1) 1.
Proof.
  revert start. induction c1 as [|c1 IH]; intros start.
  - cbn [range_from Nat.add app]. f_equal. lia.
  - cbn [range_from Nat.add app]. f_equal. rewrite IH. f_equal. f_equal. lia.
Qed.

Lemma range_0_of_nat (len : nat) : range 0 (Z.of_nat len) = range_from len 0 1.
Proof.
  unfold range, range_step. f_equal.
  replace (Z.of_nat len - 0 + 1 - 1) with (Z.of_nat len) by lia.
  rewrite Z.div_1_r. apply Nat2Z.id.
Qed.

(** ** [continued_fraction_expansion] *)

Lemma gcd_mod_step (a b : Z) : b <> 0 -> gcd a b = gcd b (a - a / b * b).
Proof.
  intros Hb. rewrite (gcd_step a b).
  destruct (Z.eqb_spec b 0) as [?|_]; [contradiction|].
  f_equal. rewrite Z.mod_eq by assumption. ring.
Qed.

(** What the loop of [continued_fraction_expansion] does from a state
    [(num, den, cf0)]: it appends quotients [qs] and ends in a state
    [(num', den')] with the same gcd, related to the start by the matrix of
    [qs]; it leaves by [break] exactly when it meets [den' = 0] early. *)
Lemma cf_loop_spec (items : list Z) :
  forall (num den : Z) (cf0 : list Z) (h1 h0 k1 k0 : Z),
  exists (qs : list Z) (num' den' : Z),
    (for_loop items
       (fun _ '(numerator, denominator, cf) =>
          if denominator =? 0 then Ret (inr cf)
          else
            let q := numerator / denominator in
            let cf := cf ++ [q] in
            Ret (inl (denominator, numerator - q * denominator, cf)))
       (num, den, cf0) = Ret (inl (num', den', cf0 ++ qs)) /\
     List.length qs = List.length items
     \/
     for_loop items
       (fun _ '(numerator, denominator, cf) =>
          if denominator =? 0 then Ret (inr cf)
          else
            let q := numerator / denominator in
            let cf := cf ++ [q] in
            Ret (inl (denominator, numerator - q * denominator, cf)))
       (num, den, cf0) = Ret (inr (cf0 ++ qs)) /\
     den' = 0 /\ (List.length qs < List.length items)%nat) /\
    gcd num den = gcd num' den' /\
    (den <> 0 -> items <> [] -> qs <> []) /\
    (forall h1' h0' k1' k0',
       fold_left conv_step qs (h1, h0, k1, k0) = (h1', h0', k1', k0') ->
       h1 * num + h0 * den = h1' * num' + h0' * den' /\
       k1 * num + k0 * den = k1' * num' + k0' * den') /\
    (0 < Z.abs den < Z.abs num /\ 0 <= num * den \/ den = 0 ->
     Forall (fun q => 1 <= q) qs).
Proof.
  induction items as [|x items IH]; intros num den cf0 h1 h0 k1 k0.
  - exists [], num, den. rewrite app_nil_r. cbn [for_loop].
    split; [left; split; reflexivity|]. split; [reflexivity|].
    split; [intros _ H; contradiction|].
    split; [|intros; constructor].
    intros h1' h0' k1' k0' H. cbn [fold_left] in H.
    injection H as <- <- <- <-. split; reflexivity.
  - cbn [for_loop]. cbv beta iota zeta.
    destruct (Z.eqb_spec den 0) as [Hd|Hd].
    + exists [], num, den. rewrite app_nil_r.
      split; [right; split; [reflexivity | split; [assumption | cbn; lia]]|].
      split; [reflexivity|].
      split; [intros; contradiction|].
      split; [|intros; constructor].
      intros h1' h0' k1' k0' H. cbn [fold_left] in H.
      injection H as <- <- <- <-. split; reflexivity.
    + set (q := num / den).
      destruct (IH den (num - q * den) (cf0 ++ [q])
                  (q * h1 + h0) h1 (q * k1 + k0) k1)
        as (qs & num' & den' & Hrun & Hg & _ & Hm & Hq).
      exists (q :: qs), num', den'.
      replace (cf0 ++ q :: qs) with ((cf0 ++ [q]) ++ qs)
        by (rewrite <- app_assoc; reflexivity).
      split.
      { destruct Hrun as [[Hr Hl] | (Hr & Hz & Hl)].
        - left. split; [exact Hr | cbn [List.length]; lia].
        - right. split; [exact Hr |]. split; [assumption | cbn [List.length]; lia]. }
      split; [rewrite <- Hg; apply gcd_mod_step; assumption|].
      split; [intros _ _; discriminate|].
      split.
      * intros h1' h0' k1' k0' H. cbn [fold_left conv_step] in H.
        destruct (Hm h1' h0' k1' k0' H) as [E1 E2].
        split; [rewrite <- E1 | rewrite <- E2]; ring.
      * intros Hsign. destruct Hsign as [[Habs Hs] | ?]; [|contradiction].
        pose proof (Z.mod_eq num den Hd) as Hmod.
        assert (Hr : num - q * den = num mod den) by (unfold q; lia).
        assert (Hq1 : 1 <= q).
        { unfold q. destruct (Z_lt_le_dec 0 den) as [Hpos|Hneg].
          - apply Z.div_le_lower_bound; lia.
          - assert (num <= 0) by nia.
            rewrite <- (Z.div_opp_opp num den) by assumption.
            apply Z.div_le_lower_bound; lia. }
        constructor; [assumption|]. apply Hq.
        rewrite Hr.
        destruct (Z.eq_dec (num mod den) 0) as [Hz|Hnz]; [right; assumption|].
        left. pose proof (Z.mod_bound_or num den Hd) as Hb.
        split; [lia|]. nia.
Qed.

Lemma range_length (a b : Z) :
  Z.of_nat (List.length (range a b)) = Z.max 0 (b - a).
Proof.
  unfold range, range_step.
  replace (b - a + 1 - 1) with (b - a) by lia. rewrite Z.div_1_r.
  assert (Hlen : forall c s, List.length (range_from c s 1) = c).
  { induction c as [|c IH]; intros s0; cbn [range_from List.length];
      [reflexivity | rewrite IH; reflexivity]. }
  rewrite Hlen. lia.
Qed.

(** X11.  [continued_fraction_expansion] never raises and returns at most
    [max_terms] coefficients, none when the denominator is 0; every
    coefficient after the first is at least 1. *)
Theorem continued_fraction_expansion_shape (numerator denominator max_terms : Z) :
  exists cf : list Z,
    continued_fraction_expansion numerator denominator max_terms = Ret cf /\
    Z.of_nat (List.length cf) <= Z.max 0 max_terms /\
    (denominator = 0 -> cf = []) /\
    Forall (fun q => 1 <= q) (tl cf).
Proof.
  unfold continued_fraction_expansion. cbv zeta.
  pose proof (range_length 0 max_terms) as Hlen.
  replace (max_terms - 0) with max_terms in Hlen by lia.
  destruct (range 0 max_terms) as [|x items] eqn:Hitems.
  - exists []. cbn [for_loop res_bind List.length tl].
    split; [reflexivity|]. split; [lia|]. split; [reflexivity | constructor].
  - cbn [for_loop]. cbv beta iota zeta.
    destruct (Z.eqb_spec denominator 0) as [Hd|Hd].
    + exists []. cbn [res_bind List.length tl].
      split; [reflexivity|]. split; [lia|]. split; [reflexivity | constructor].
    + set (q := numerator / denominator).
      destruct (cf_loop_spec items denominator (numerator - q * denominator)
                  ([] ++ [q]) 1 0 0 1)
        as (qs & num' & den' & Hrun & _ & _ & _ & Hq).
      exists (q :: qs).
      assert (Hqs : Forall (fun q0 => 1 <= q0) qs).
      { apply Hq.
        pose proof (Z.mod_eq numerator denominator Hd) as Hmod.
        assert (Hr : numerator - q * denominator = numerator mod denominator)
          by (unfold q; lia).
        rewrite Hr.
        destruct (Z.eq_dec (numerator mod denominator) 0) as [Hz|Hnz];
          [right; assumption|].
        left. pose proof (Z.mod_bound_or numerator denominator Hd) as Hb.
        split; [lia|]. nia. }
      cbn [List.length] in Hlen. cbv beta iota zeta in Hrun.
      destruct Hrun as [[Hr Hl] | (Hr & _ & Hl)]; rewrite Hr;
        cbn [res_bind app List.length tl];
        (split; [reflexivity|]); (split; [lia|]);
        (split; [intros; contradiction | assumption]).
Qed.

(** ** [convergents_from_cf] *)

Lemma coprime_of_det (h1 h0 k1 k0 : Z) :
  h1 * k0 - h0 * k1 = 1 \/ h1 * k0 - h0 * k1 = -1 -> Z.gcd h1 k1 = 1.
Proof.
  intros Hdet. apply divide_1_nonneg; [apply Z.gcd_nonneg|].
  assert (Hd : (Z.gcd h1 k1 | h1 * k0 - h0 * k1)).
  { apply Z.divide_sub_r.
    - apply Z.divide_mul_l. apply Z.gcd_divide_l.
    - apply Z.divide_mul_r. apply Z.gcd_divide_r. }
  destruct Hdet as [E|E]; rewrite E in Hd; [assumption|].
  apply Z.divide_opp_r in Hd. exact Hd.
Qed.

Lemma conv_state_snoc (pre : list Z) (a : Z) :
  conv_state (pre ++ [a]) = conv_step (conv_state pre) a.
Proof. unfold conv_state. rewrite fold_left_app. reflexivity. Qed.

(** The loop of [convergents_from_cf] from index 2 on: the last two entries
    of [convergents] are the last two columns of the matrix. *)
Lemma conv_loop_tail (cf : list Z) :
  forall (rest pre : list Z) (c_pre : list (Z * Z)) (h1 h0 k1 k0 : Z),
    cf = pre ++ rest ->
    List.length (c_pre ++ [(h0, k0); (h1, k1)]) = List.length pre ->
    conv_state pre = (h1, h0, k1, k0) ->
    h1 * k0 - h0 * k1 = 1 \/ h1 * k0 - h0 * k1 = -1 ->
    Forall (fun c => Z.gcd (fst c) (snd c) = 1)
      (c_pre ++ [(h0, k0); (h1, k1)]) ->
    exists (cs c' : list (Z * Z)) (h1f h0f k1f k0f : Z),
      for_each (range_from (List.length rest) (Z.of_nat (List.length pre)) 1)
        (fun i convergents =>
           if i =? 0 then
             c0 <- list_get cf 0 ;;
             Ret (convergents ++ [(c0, 1)])
           else if i =? 1 then
             c1 <- list_get cf 1 ;;
             c0 <- list_get cf 0 ;;
             Ret (convergents ++ [(c1 * c0 + 1, c1)])
           else
             ci <- list_get cf i ;;
             prev1 <- list_get convergents (i - 1) ;;
             prev2 <- list_get convergents (i - 2) ;;
             let num := ci * fst prev1 + fst prev2 in
             let den := ci * snd prev1 + snd prev2 in
             Ret (convergents ++ [(num, den)]))
        (c_pre ++ [(h0, k0); (h1, k1)]) = Ret cs /\
      List.length cs = List.length cf /\
      Forall (fun c => Z.gcd (fst c) (snd c) = 1) cs /\
      conv_state cf = (h1f, h0f, k1f, k0f) /\
      cs = c' ++ [(h1f, k1f)].
Proof.
  induction rest as [|a rest IH]; intros pre c_pre h1 h0 k1 k0 Hcf Hlen Hst Hdet Hlow.
  - rewrite app_nil_r in Hcf. subst cf. cbn [List.length range_from for_each].
    exists (c_pre ++ [(h0, k0); (h1, k1)]), (c_pre ++ [(h0, k0)]), h1, h0, k1, k0.
    split; [reflexivity|]. split; [assumption|]. split; [assumption|].
    split; [assumption|]. rewrite <- app_assoc. reflexivity.
  - cbn [List.length range_from for_each].
    rewrite length_app in Hlen. cbn [List.length] in Hlen.
    destruct (Z.eqb_spec (Z.of_nat (List.length pre)) 0) as [?|_]; [lia|].
    destruct (Z.eqb_spec (Z.of_nat (List.length pre)) 1) as [?|_]; [lia|].
    rewrite (list_get_nth cf (List.length pre) a).
    2:{ rewrite Hcf, nth_error_app2 by lia. rewrite Nat.sub_diag. reflexivity. }
    cbn [res_bind].
    replace (Z.of_nat (List.length pre) - 1)
      with (Z.of_nat (List.length (c_pre ++ [(h0, k0)])))
      by (rewrite length_app; cbn [List.length]; lia).
    replace (c_pre ++ [(h0, k0); (h1, k1)])
      with ((c_pre ++ [(h0, k0)]) ++ [(h1, k1)])
      by (rewrite <- app_assoc; reflexivity).
    rewrite list_get_snoc. cbn [res_bind].
    replace (Z.of_nat (List.length pre) - 2)
      with (Z.of_nat (List.length c_pre)) by lia.
    rewrite <- app_assoc. cbn [app].
    rewrite list_get_snoc2. cbn [res_bind fst snd]. cbv zeta.
    replace ((c_pre ++ [(h0, k0); (h1, k1)]) ++ [(a * h1 + h0, a * k1 + k0)])
      with ((c_pre ++ [(h0, k0)]) ++ [(h1, k1); (a * h1 + h0, a * k1 + k0)])
      by (rewrite <- !app_assoc; reflexivity).
    replace (Z.of_nat (List.length pre) + 1)
      with (Z.of_nat (List.length (pre ++ [a])))
      by (rewrite length_app; cbn [List.length]; lia).
    assert (Hdet' : (a * h1 + h0) * k1 - h1 * (a * k1 + k0) = 1 \/
                    (a * h1 + h0) * k1 - h1 * (a * k1 + k0) = -1) by lia.
    apply (IH (pre ++ [a]) (c_pre ++ [(h0, k0)])
              (a * h1 + h0) h1 (a * k1 + k0) k1).
    + rewrite <- app_assoc. exact Hcf.
    + rewrite !length_app. cbn [List.length]. lia.
    + rewrite conv_state_snoc, Hst. reflexivity.
    + exact Hdet'.
    + replace ((c_pre ++ [(h0, k0)]) ++ [(h1, k1); (a * h1 + h0, a * k1 + k0)])
        with ((c_pre ++ [(h0, k0); (h1, k1)]) ++ [(a * h1 + h0, a * k1 + k0)])
        by (rewrite <- !app_assoc; reflexivity).
      apply Forall_app. split; [assumption|].
      constructor; [|constructor]. cbn [fst snd].
      apply (coprime_of_det _ h1 _ k1). exact Hdet'.
Qed.

Lemma convergents_from_cf_spec (cf : list Z) :
  exists cs : list (Z * Z),
    convergents_from_cf cf = Ret cs /\
    List.length cs = List.length cf /\
    Forall (fun c => Z.gcd (fst c) (snd c) = 1) cs /\
    (cf <> [] ->
     exists c' h1 h0 k1 k0,
       conv_state cf = (h1, h0, k1, k0) /\ cs = c' ++ [(h1, k1)]).
Proof.
  unfold convergents_from_cf. cbv zeta. rewrite range_0_of_nat.
  destruct cf as [|a0 [|a1 rest]].
  - exists []. cbn [List.length range_from for_each].
    split; [reflexivity|]. split; [reflexivity|]. split; [constructor|].
    intros H. contradiction.
  - exists [(a0, 1)]. cbn [List.length range_from for_each Z.eqb].
    change 0 with (Z.of_nat 0) at 1.
    rewrite (list_get_nth [a0] 0 a0 eq_refl). cbn [res_bind app].
    split; [reflexivity|]. split; [reflexivity|]. split.
    { constructor; [apply Z.gcd_1_r | constructor]. }
    intros _. exists [], (a0 * 1 + 0), 1, (a0 * 0 + 1), 0.
    split; [reflexivity|]. cbn [app]. do 2 f_equal; ring.
  - cbn [List.length range_from].
    match goal with
    | |- context [for_each _ ?f _] => set (F := f)
    end.
    assert (H0 : F 0 [] = Ret [(a0, 1)]).
    { subst F. cbv beta. cbn [Z.eqb].
      change 0 with (Z.of_nat 0).
      rewrite (list_get_nth (a0 :: a1 :: rest) 0 a0 eq_refl). reflexivity. }
    assert (H1 : F (0 + 1) [(a0, 1)] = Ret [(a0, 1); (a1 * a0 + 1, a1)]).
    { subst F. cbv beta. cbn [Z.eqb Z.add Pos.eqb].
      change (list_get (a0 :: a1 :: rest) 0)
        with (list_get (a0 :: a1 :: rest) (Z.of_nat 0)).
      change (list_get (a0 :: a1 :: rest) 1)
        with (list_get (a0 :: a1 :: rest) (Z.of_nat 1)).
      rewrite (list_get_nth (a0 :: a1 :: rest) 0 a0 eq_refl).
      rewrite (list_get_nth (a0 :: a1 :: rest) 1 a1 eq_refl).
      reflexivity. }
    cbn [for_each]. rewrite H0. cbn [res_bind]. rewrite H1. cbn [res_bind].
    destruct (conv_loop_tail (a0 :: a1 :: rest) rest [a0; a1] []
                (a1 * a0 + 1) a0 a1 1)
      as (cs & c' & h1f & h0f & k1f & k0f & Hrun & Hlen & Hlow & Hst & Hcs).
    + reflexivity.
    + reflexivity.
    + unfold conv_state. cbn [fold_left conv_step]. repeat f_equal; ring.
    + left. ring.
    + cbn [app]. constructor; [apply Z.gcd_1_r|].
      constructor; [|constructor]. cbn [fst snd].
      apply (coprime_of_det _ a0 _ 1). left. ring.
    + exists cs. split; [exact Hrun|]. split; [exact Hlen|].
      split; [exact Hlow|].
      intros _. exists c', h1f, h0f, k1f, k0f. split; assumption.
Qed.

(** X12.  [convergents_from_cf] never raises (no index is out of range),
    returns one convergent for each coefficient, and every convergent is a
    fraction in lowest terms. *)
Theorem convergents_from_cf_lowest_terms (cf : list Z) :
  exists cs : list (Z * Z),
    convergents_from_cf cf = Ret cs /\
    List.length cs = List.length cf /\
    Forall (fun c => Z.gcd (fst c) (snd c) = 1) cs.
Proof.
  destruct (convergents_from_cf_spec cf) as (cs & Hrun & Hlen & Hlow & _).
  exists cs. split; [assumption|]. split; assumption.
Qed.

(** X13.  When the expansion of [numerator / denominator] was not cut short
    by [max_terms], its last convergent [(p, q)] is the fraction itself in
    lowest terms: [numerator = p * g] and [denominator = q * g] for
    [g = gcd(numerator, denominator)]. *)
Theorem continued_fraction_round_trip
    (numerator denominator max_terms : Z) (cf : list Z)
    (cs' : list (Z * Z)) (p q : Z)
    (Hcf : continued_fraction_expansion numerator denominator max_terms = Ret cf)
    (Hfull : Z.of_nat (List.length cf) < max_terms)
    (Hcs : convergents_from_cf cf = Ret (cs' ++ [(p, q)])) :
  numerator = p * gcd numerator denominator /\
  denominator = q * gcd numerator denominator.
Proof.
  unfold continued_fraction_expansion in Hcf. cbv zeta in Hcf.
  pose proof (range_length 0 max_terms) as Hlen.
  replace (max_terms - 0) with max_terms in Hlen by lia.
  destruct (cf_loop_spec (range 0 max_terms) numerator denominator [] 1 0 0 1)
    as (qs & num' & den' & Hrun & Hg & _ & Hm & _).
  cbn [app] in Hrun.
  assert (Hbreak : cf = qs /\ den' = 0).
  { destruct Hrun as [[Hr Hl] | (Hr & Hz & Hl)]; rewrite Hr in Hcf;
      cbn [res_bind] in Hcf; injection Hcf as <-.
    - lia.
    - split; [reflexivity | assumption]. }
  destruct Hbreak as [-> ->].
  rewrite gcd_0_r in Hg.
  destruct (convergents_from_cf_spec qs) as (cs & Hcs2 & Hlen2 & _ & Hlast).
  rewrite Hcs in Hcs2. injection Hcs2 as <-.
  assert (Hne : qs <> []).
  { intros ->. rewrite length_app in Hlen2. cbn [List.length] in Hlen2. lia. }
  destruct (Hlast Hne) as (c' & h1 & h0 & k1 & k0 & Hst & Heq).
  apply app_inj_tail in Heq. destruct Heq as [_ Heq]. injection Heq as -> ->.
  destruct (Hm h1 h0 k1 k0 Hst) as [E1 E2].
  rewrite Hg. split; lia.
Qed.

Lemma continued_fraction_round_trip_witness :
  415 = 415 * gcd 415 93 /\ 93 = 93 * gcd 415 93.
Proof.
  apply (continued_fraction_round_trip 415 93 20 [4; 2; 6; 7]
           [(4, 1); (9, 2); (58, 13)] 415 93).
  - reflexivity.
  - simpl. lia.
  - reflexivity.
Defined.

(** ** [classical_period_finding] *)

Lemma py_mod_nonzero (a b : Z) : b <> 0 -> py_mod a b = Ret (a mod b).
Proof.
  intros Hb. unfold py_mod.
  destruct (Z.eqb_spec b 0) as [?|_]; [contradiction | reflexivity].
Qed.

(** The search loop from round [start] with [power = a^start mod N]: it
    either runs through all rounds, none of which has [a^j mod N = 1], or
    leaves at the first round that has. *)
Lemma period_loop (a N : Z) (HN : N <> 0) :
  forall (count : nat) (start power : Z),
    1 <= start ->
    power = a ^ start mod N ->
    (exists power',
        for_loop (range_from count start 1)
          (fun r power =>
             if power =? 1 then Ret (inr r)
             else
               power <- py_mod (power * a) N ;;
               Ret (inl power))
          power = Ret (inl power') /\
        forall j, start <= j < start + Z.of_nat count -> a ^ j mod N <> 1) \/
    (exists r,
        for_loop (range_from count start 1)
          (fun r power =>
             if power =? 1 then Ret (inr r)
             else
               power <- py_mod (power * a) N ;;
               Ret (inl power))
          power = Ret (inr r) /\
        start <= r < start + Z.of_nat count /\
        a ^ r mod N = 1 /\
        forall j, start <= j < r -> a ^ j mod N <> 1).
Proof.
  induction count as [|count IH]; intros start power Hs Hp.
  - left. exists power. cbn [range_from for_loop]. split; [reflexivity|].
    intros j Hj. lia.
  - cbn [range_from for_loop].
    destruct (Z.eqb_spec power 1) as [E|E].
    + right. exists start. split; [reflexivity|]. split; [lia|].
      split; [congruence|]. intros j Hj. lia.
    + rewrite (py_mod_nonzero (power * a) N HN). cbn [res_bind].
      assert (Hp' : (power * a) mod N = a ^ (start + 1) mod N).
      { rewrite Hp, Z.mul_mod_idemp_l by assumption.
        rewrite Z.pow_add_r, Z.pow_1_r by lia. reflexivity. }
      destruct (IH (start + 1) ((power * a) mod N) ltac:(lia) Hp')
        as [(p' & Hrun & Hall) | (r & Hrun & Hr & H1 & Hmin)].
      * left. exists p'. split; [exact Hrun|]. intros j Hj.
        destruct (Z.eq_dec j start) as [->|Hne]; [congruence|].
        apply Hall. lia.
      * right. exists r. split; [exact Hrun|]. split; [lia|].
        split; [exact H1|]. intros j Hj.
        destruct (Z.eq_dec j start) as [->|Hne]; [congruence|].
        apply Hmin. lia.
Qed.

Lemma range_1 (stop : Z) : range 1 stop = range_from (Z.to_nat (stop - 1)) 1 1.
Proof.
  unfold range, range_step. f_equal.
  replace (stop - 1 + 1 - 1) with (stop - 1) by lia.
  rewrite Z.div_1_r. reflexivity.
Qed.

Lemma classical_period_finding_spec_nonzero (a N max_period : Z) (HN : N <> 0) :
  exists o : option Z,
    classical_period_finding a N max_period = Ret o /\
    forall r : Z,
      o = Some r <->
      gcd a N = 1 /\
      1 <= r < Z.min max_period N /\
      a ^ r mod N = 1 /\
      forall j, 1 <= j < r -> a ^ j mod N <> 1.
Proof.
  unfold classical_period_finding.
  destruct (Z.eqb_spec (gcd a N) 1) as [Hg|Hg]; cbn [negb].
  2:{ exists None. split; [reflexivity|]. intros r. split; [discriminate|].
      intros [? _]. contradiction. }
  rewrite (py_mod_nonzero a N HN). cbn [res_bind]. rewrite range_1.
  assert (Hp : a mod N = a ^ 1 mod N) by (rewrite Z.pow_1_r; reflexivity).
  destruct (period_loop a N HN (Z.to_nat (Z.min max_period N - 1)) 1 (a mod N)
              ltac:(lia) Hp)
    as [(p' & Hrun & Hall) | (r0 & Hrun & Hr & H1 & Hmin)];
    rewrite Hrun; cbn [res_bind].
  - exists None. split; [reflexivity|]. intros r. split; [discriminate|].
    intros (_ & Hr & H1 & _). exfalso. apply (Hall r); [lia | exact H1].
  - exists (Some r0). split; [reflexivity|]. intros r. split.
    + intros E. injection E as <-. split; [exact Hg|]. split; [lia|].
      split; assumption.
    + intros (_ & Hr' & H1' & Hmin'). f_equal.
      destruct (Z.lt_trichotomy r0 r) as [Hlt | [E | Hlt]].
      * exfalso. apply (Hmin' r0); [lia | exact H1].
      * exact E.
      * exfalso. apply (Hmin r); [lia | exact H1'].
Qed.

(** X14.  For a modulus [N <> 0], [classical_period_finding] returns, and it
    returns [r] exactly when [gcd(a, N) == 1] and [r] is the least exponent
    in [1 .. min(max_period, N) - 1] with [a^r mod N == 1]: the
    multiplicative order of [a], when it lies in that window; otherwise it
    returns [None]. *)
Theorem classical_period_finding_least (a N max_period : Z) (HN : N <> 0) :
  exists o : option Z,
    classical_period_finding a N max_period = Ret o /\
    forall r : Z,
      o = Some r <->
      gcd a N = 1 /\
      1 <= r < Z.min max_period N /\
      a ^ r mod N = 1 /\
      forall j, 1 <= j < r -> a ^ j mod N <> 1.
Proof. exact (classical_period_finding_spec_nonzero a N max_period HN). Qed.

Lemma classical_period_finding_least_witness :
  exists o : option Z,
    classical_period_finding 7 15 1000 = Ret o /\
    forall r : Z,
      o = Some r <->
      gcd 7 15 = 1 /\
      1 <= r < Z.min 1000 15 /\
      7 ^ r mod 15 = 1 /\
      forall j, 1 <= j < r -> 7 ^ j mod 15 <> 1.
Proof. apply (classical_period_finding_least 7 15 1000). lia. Defined.

(** X15.  [classical_period_finding] raises only in one case: [a == 1] and
    [N == 0], where [gcd(1, 0) == 1] passes the guard and [a % N] divides by
    zero. *)
Theorem classical_period_finding_raises_iff (a N max_period : Z) :
  (exists e, classical_period_finding a N max_period = Exn e) <->
  a = 1 /\ N = 0.
Proof.
  split.
  - intros [e He]. destruct (Z.eq_dec N 0) as [->|HN].
    + split; [|reflexivity]. unfold classical_period_finding in He.
      rewrite gcd_0_r in He.
      destruct (Z.eqb_spec a 1) as [E|E]; [exact E | discriminate].
    + destruct (classical_period_finding_spec_nonzero a N max_period HN)
        as [o [Ho _]].
      rewrite Ho in He. discriminate.
  - intros [-> ->]. exists "integer modulo by zero"%string. reflexivity.
Qed.

(** ** [is_power] and [shors_algorithm_simple] *)

Section FloatsProperties.

Variable float_log2 : Z -> Z.
Variable float_root : Z -> Z -> res Z.

Lemma is_power_loop (n : Z) :
  forall (items : list Z) (a b : Z),
    for_loop items
      (fun b (_ : unit) =>
         a <- float_root n b ;;
         if a ^ b =? n then Ret (inr (a, b)) else Ret (inl tt))
      tt = Ret (inr (a, b)) ->
    a ^ b = n /\ In b items.
Proof.
  induction items as [|b0 items IH]; intros a b Hrun.
  - discriminate.
  - cbn [for_loop] in Hrun.
    destruct (float_root n b0) as [a0| |]; cbn [res_bind] in Hrun;
      try discriminate.
    destruct (Z.eqb_spec (a0 ^ b0) n) as [E|E].
    + injection Hrun as <- <-. split; [exact E | left; reflexivity].
    + destruct (IH a b) as [H1 H2].
      * destruct (for_loop items _ tt) as [[[]|?]| |] eqn:Hl;
          try discriminate; exact Hrun.
      * split; [exact H1 | right; exact H2].
Qed.

Lemma is_power_some (n a b : Z) :
  is_power float_log2 float_root n = Ret (Some (a, b)) ->
  0 < n /\ a ^ b = n /\ 2 <= b <= float_log2 n.
Proof.
  unfold is_power. destruct (Z.leb_spec n 0) as [?|Hn]; [discriminate|].
  intros Hrun.
  destruct (for_loop (range 2 (float_log2 n + 1)) _ tt) as [[[]|[a0 b0]]| |] eqn:Hl;
    cbn [res_bind] in Hrun; try discriminate.
  injection Hrun as -> ->.
  apply is_power_loop in Hl. destruct Hl as [E Hin].
  apply In_range in Hin. split; [exact Hn|]. split; [exact E | lia].
Qed.

(** X16.  Whatever the float computations of [is_power] give, a pair it
    returns is an exact power: [a ** b == n] with [b >= 2] (and [b] at most
    the computed logarithm), and [n] is positive. *)
Theorem is_power_sound (n a b : Z)
    (Hrun : is_power float_log2 float_root n = Ret (Some (a, b))) :
  0 < n /\ a ^ b = n /\ 2 <= b <= float_log2 n.
Proof. exact (is_power_some n a b Hrun). Qed.

Lemma product_repeat (x : Z) (k : nat) : product (repeat x k) = x ^ Z.of_nat k.
Proof.
  induction k as [|k IH].
  - reflexivity.
  - cbn [repeat]. rewrite product_cons, IH, Nat2Z.inj_succ, Z.pow_succ_r by lia.
    reflexivity.
Qed.

Lemma split_nontrivial (f N : Z) :
  1 < f < N -> (f | N) ->
  product [f; N / f] = N /\
  Forall (fun d => 1 < Z.abs d < N) [f; N / f].
Proof.
  intros Hf [k Hk].
  assert (Hq : N / f = k) by (subst N; apply Z.div_mul; lia).
  rewrite Hq. rewrite !product_cons, product_nil.
  assert (Hk1 : 1 < k < N) by nia.
  split; [lia|].
  constructor; [lia|]. constructor; [lia|]. constructor.
Qed.

Lemma randint_range (lo hi : Z) (gen gen' : rng) (a : Z) :
  randint lo hi gen = Ret (a, gen') -> lo <= a <= hi.
Proof.
  unfold randint. destruct (Z.ltb_spec hi lo) as [?|Hle]; [discriminate|].
  intros H. injection H as <- _.
  pose proof (Z.mod_pos_bound (stream gen (cursor gen)) (hi - lo + 1)
                ltac:(lia)).
  lia.
Qed.

Lemma gcd_gt_1_divides (a N : Z) : 1 < gcd a N -> (gcd a N | a) /\ (gcd a N | N).
Proof.
  intros Hg. pose proof (gcd_abs a N) as Habs.
  rewrite Z.abs_eq in Habs by lia. rewrite Habs.
  split; [apply Z.gcd_divide_l | apply Z.gcd_divide_r].
Qed.

Lemma shors_simple_attempt_sound (N : Z) (gen gen' : rng) (l : list Z) :
  3 <= N ->
  shors_simple_attempt N gen = Ret (inr (l, gen')) ->
  product l = N /\ Forall (fun d => 1 < Z.abs d < N) l /\ List.length l = 2%nat.
Proof.
  intros HN. unfold shors_simple_attempt.
  destruct (randint 2 (N - 1) gen) as [[a gen1]| |] eqn:Hr;
    cbn [res_bind]; try discriminate.
  apply randint_range in Hr. cbv zeta.
  destruct (Z.gtb_spec (gcd a N) 1) as [Hg|Hg].
  - intros H. injection H as <- _.
    destruct (gcd_gt_1_divides a N Hg) as [Ha HdN].
    assert (Hle : gcd a N <= a) by (apply Z.divide_pos_le; [lia | exact Ha]).
    destruct (split_nontrivial (gcd a N) N ltac:(lia) HdN) as [H1 H2].
    split; [exact H1|]. split; [exact H2 | reflexivity].
  - destruct (classical_period_finding a N 1000) as [[r|]| |];
      cbn [res_bind]; try discriminate.
    destruct (negb (r =? 0) && (r mod 2 =? 0)); [|discriminate].
    destruct (negb (a ^ (r / 2) mod N =? N - 1)); [|discriminate].
    destruct ((gcd (a ^ (r / 2) mod N + 1) N >? 1) &&
              (gcd (a ^ (r / 2) mod N + 1) N <? N)) eqn:H1.
    + apply andb_true_iff in H1. destruct H1 as [Hgt Hlt].
      apply Z.gtb_lt in Hgt. apply Z.ltb_lt in Hlt.
      intros H. injection H as <- _.
      destruct (gcd_gt_1_divides _ N Hgt) as [_ HdN].
      destruct (split_nontrivial _ N (conj Hgt Hlt) HdN) as [E1 E2].
      split; [exact E1|]. split; [exact E2 | reflexivity].
    + destruct ((gcd (a ^ (r / 2) mod N - 1) N >? 1) &&
                (gcd (a ^ (r / 2) mod N - 1) N <? N)) eqn:H2; [|discriminate].
      apply andb_true_iff in H2. destruct H2 as [Hgt Hlt].
      apply Z.gtb_lt in Hgt. apply Z.ltb_lt in Hlt.
      intros H. injection H as <- _.
      destruct (gcd_gt_1_divides _ N Hgt) as [_ HdN].
      destruct (split_nontrivial _ N (conj Hgt Hlt) HdN) as [E1 E2].
      split; [exact E1|]. split; [exact E2 | reflexivity].
Qed.

Lemma shors_simple_loop_sound (N : Z) (HN : 3 <= N) :
  forall (items : list Z) (gen gen' : rng) (l : list Z),
    for_loop items (fun _ gen => shors_simple_attempt N gen) gen
      = Ret (inr (l, gen')) ->
    product l = N /\ Forall (fun d => 1 < Z.abs d < N) l /\ List.length l = 2%nat.
Proof.
  induction items as [|i items IH]; intros gen gen' l Hrun.
  - discriminate.
  - cbn [for_loop] in Hrun.
    destruct (shors_simple_attempt N gen) as [[gen1|[l1 gen1]]| |] eqn:Ha;
      try discriminate.
    + apply (IH gen1 gen' l). exact Hrun.
    + injection Hrun as <- <-.
      apply (shors_simple_attempt_sound N gen gen1 l1 HN Ha).
Qed.

Lemma even_split_nontrivial (N : Z) :
  3 <= N -> N mod 2 = 0 ->
  product [2; N / 2] = N /\
  Forall (fun d => 1 < Z.abs d < N) [2; N / 2] /\
  (2 <= List.length [2; N / 2]%Z)%nat.
Proof.
  intros HN Hev.
  assert (Hd : (2 | N)) by (apply Z.mod_divide; [lia | exact Hev]).
  assert (H2N : 1 < 2 < N) by lia.
  destruct (split_nontrivial 2 N H2N Hd) as [E1 E2].
  split; [exact E1|]. split; [exact E2 | cbn [List.length]; lia].
Qed.

Lemma power_split_nontrivial (N base exp : Z) :
  3 <= N ->
  is_power float_log2 float_root N = Ret (Some (base, exp)) ->
  product (repeat base (Z.to_nat exp)) = N /\
  Forall (fun d => 1 < Z.abs d < N) (repeat base (Z.to_nat exp)) /\
  (2 <= List.length (repeat base (Z.to_nat exp)))%nat.
Proof.
  intros HN Hp.
  apply is_power_some in Hp. destruct Hp as (_ & Hpow & Hexp & _).
  rewrite product_repeat, repeat_length, Z2Nat.id by lia.
  split; [exact Hpow|]. split; [|lia].
  apply Forall_forall. intros d Hd. apply repeat_spec in Hd. subst d.
  assert (Habs : Z.abs base ^ exp = N).
  { rewrite <- Z.abs_pow, Hpow. lia. }
  assert (H0 : Z.abs base <> 0).
  { intros E. rewrite E, Z.pow_0_l in Habs by lia. lia. }
  assert (H1 : Z.abs base <> 1).
  { intros E. rewrite E, Z.pow_1_l in Habs by lia. lia. }
  split; [lia|].
  assert (Hlt : Z.abs base ^ 1 < Z.abs base ^ exp)
    by (apply Z.pow_lt_mono_r; lia).
  rewrite Z.pow_1_r, Habs in Hlt. exact Hlt.
Qed.

Lemma shors_algorithm_simple_factors (N : Z) (gen gen' : rng)
    (l : list Z) (HN : 3 <= N)
    (Hrun : shors_algorithm_simple float_log2 float_root N gen
            = Ret (Some l, gen')) :
  product l = N /\
  Forall (fun d => 1 < Z.abs d < N) l /\
  (2 <= List.length l)%nat.
Proof.
  unfold shors_algorithm_simple in Hrun.
  destruct (Z.ltb_spec N 2) as [?|_]; [lia|].
  destruct (Z.eqb_spec (N mod 2) 0) as [Hev|Hodd].
  - injection Hrun as <- _.
    apply (even_split_nontrivial N HN Hev).
  - destruct (is_power float_log2 float_root N) as [[[base exp]|]| |] eqn:Hp;
      cbn [res_bind] in Hrun; try discriminate.
    + injection Hrun as <- _.
      apply (power_split_nontrivial N base exp HN Hp).
    + destruct (for_loop (range 0 10) _ gen) as [[gen1|[l1 gen1]]| |] eqn:Hl;
        cbn [res_bind] in Hrun; try discriminate.
      injection Hrun as <- <-.
      destruct (shors_simple_loop_sound N HN _ _ _ _ Hl) as (E1 & E2 & E3).
      split; [exact E1|]. split; [exact E2 | lia].
Qed.

(** X17.  For [N >= 3], whatever the random choices and the float
    computations give, a list of factors returned by
    [shors_algorithm_simple] has at least two members, its product is [N],
    and no member is trivial: each has an absolute value strictly between
    [1] and [N]. *)
Theorem shors_algorithm_simple_nontrivial (N : Z) (gen gen' : rng)
    (l : list Z) (HN : 3 <= N)
    (Hrun : shors_algorithm_simple float_log2 float_root N gen
            = Ret (Some l, gen')) :
  product l = N /\
  Forall (fun d => 1 < Z.abs d < N) l /\
  (2 <= List.length l)%nat.
Proof. exact (shors_algorithm_simple_factors N gen gen' l HN Hrun). Qed.

(** X18.  For an odd prime [N], [shors_algorithm_simple] never returns a
    list of factors, whatever the random choices and the float computations
    give. *)
Theorem shors_algorithm_simple_prime (N : Z) (gen gen' : rng) (l : list Z)
    (HN : 3 <= N) (Hp : Z.prime N) :
  shors_algorithm_simple float_log2 float_root N gen <> Ret (Some l, gen').
Proof.
  intros Hrun.
  destruct (shors_algorithm_simple_factors N gen gen' l HN Hrun)
    as (Hprod & Hall & Hlen).
  destruct l as [|d l']; [cbn [List.length] in Hlen; lia|].
  apply Forall_inv in Hall. rewrite product_cons in Hprod.
  destruct Hp as [_ Hp]. apply (Hp (Z.abs d) Hall).
  apply Z.divide_abs_l. exists (product l'). lia.
Qed.

End FloatsProperties.

Lemma is_power_sound_witness :
  0 < 8 /\ 2 ^ 3 = 8 /\ 2 <= 3 <= exact_log2 8.
Proof. apply (is_power_sound exact_log2 exact_root 8 2 3). reflexivity. Defined.

Lemma shors_algorithm_simple_nontrivial_witness :
  product [5; 3] = 15 /\
  Forall (fun d => 1 < Z.abs d < 15) [5; 3] /\
  (2 <= List.length [5; 3]%Z)%nat.
Proof.
  eapply (shors_algorithm_simple_nontrivial exact_log2 exact_root 15
            (const_rng 5 0)).
  - lia.
  - vm_compute. reflexivity.
Defined.

Lemma shors_algorithm_simple_prime_witness :
  shors_algorithm_simple exact_log2 exact_root 7 (const_rng 0 0)
  <> Ret (Some [7; 1], const_rng 0 10).
Proof.
  apply (shors_algorithm_simple_prime exact_log2 exact_root 7).
  - lia.
  - apply (prime_by_trial 7 3); [lia | lia | lia |].
    vm_compute. reflexivity.
Defined.

(** ** [shors_algorithm] *)

Section QuantumProperties.

Variable float_log2 : Z -> Z.
Variable float_root : Z -> Z -> res Z.
Variable quantum_period_finding : Z -> Z -> Z -> Z -> bool -> res (option N).

Lemma shors_attempt_sound (N : Z) (use_simulator : bool) (attempt : Z)
    (gen gen' : rng) (l : list Z) :
  3 <= N ->
  shors_attempt quantum_period_finding N use_simulator attempt gen
    = Ret (inr (l, gen')) ->
  product l = N /\ Forall (fun d => 1 < Z.abs d < N) l /\ List.length l = 2%nat.
Proof.
  intros HN. unfold shors_attempt.
  destruct (randint 2 (N - 1) gen) as [[a gen1]| |] eqn:Hr;
    cbn [res_bind]; try discriminate.
  apply randint_range in Hr. cbv zeta.
  destruct (Z.gtb_spec (gcd a N) 1) as [Hg|Hg].
  - intros H. injection H as <- _.
    destruct (gcd_gt_1_divides a N Hg) as [Ha HdN].
    assert (Hle : gcd a N <= a) by (apply Z.divide_pos_le; [lia | exact Ha]).
    destruct (split_nontrivial (gcd a N) N ltac:(lia) HdN) as [H1 H2].
    split; [exact H1|]. split; [exact H2 | reflexivity].
  - destruct (quantum_period_finding attempt a N 8 use_simulator) as [[r|]| |];
      cbn [res_bind]; try discriminate.
    destruct (negb (Z.of_N r mod 2 =? 0)); [discriminate|].
    destruct (a ^ (Z.of_N r / 2) mod N =? N - 1); [discriminate|].
    destruct ((gcd (a ^ (Z.of_N r / 2) mod N + 1) N >? 1) &&
              (gcd (a ^ (Z.of_N r / 2) mod N + 1) N <? N)) eqn:H1.
    + apply andb_true_iff in H1. destruct H1 as [Hgt Hlt].
      apply Z.gtb_lt in Hgt. apply Z.ltb_lt in Hlt.
      intros H. injection H as <- _.
      destruct (gcd_gt_1_divides _ N Hgt) as [_ HdN].
      destruct (split_nontrivial _ N (conj Hgt Hlt) HdN) as [E1 E2].
      split; [exact E1|]. split; [exact E2 | reflexivity].
    + destruct ((gcd (a ^ (Z.of_N r / 2) mod N - 1) N >? 1) &&
                (gcd (a ^ (Z.of_N r / 2) mod N - 1) N <? N)) eqn:H2;
        [|discriminate].
      apply andb_true_iff in H2. destruct H2 as [Hgt Hlt].
      apply Z.gtb_lt in Hgt. apply Z.ltb_lt in Hlt.
      intros H. injection H as <- _.
      destruct (gcd_gt_1_divides _ N Hgt) as [_ HdN].
      destruct (split_nontrivial _ N (conj Hgt Hlt) HdN) as [E1 E2].
      split; [exact E1|]. split; [exact E2 | reflexivity].
Qed.

Lemma shors_loop_sound (N : Z) (use_simulator : bool) (HN : 3 <= N) :
  forall (items : list Z) (gen gen' : rng) (l : list Z),
    for_loop items
      (fun attempt gen =>
         shors_attempt quantum_period_finding N use_simulator attempt gen)
      gen = Ret (inr (l, gen')) ->
    product l = N /\ Forall (fun d => 1 < Z.abs d < N) l /\ List.length l = 2%nat.
Proof.
  induction items as [|i items IH]; intros gen gen' l Hrun.
  - discriminate.
  - cbn [for_loop] in Hrun.
    destruct (shors_attempt quantum_period_finding N use_simulator i gen)
      as [[gen1|[l1 gen1]]| |] eqn:Ha; try discriminate.
    + apply (IH gen1 gen' l). exact Hrun.
    + injection Hrun as <- <-.
      apply (shors_attempt_sound N use_simulator i gen gen1 l1 HN Ha).
Qed.

(** X19.  For [N >= 3], whatever the quantum routine, the random choices
    and the float computations give, a list of factors returned by
    [shors_algorithm] has at least two members, its product is [N], and each
    member has an absolute value strictly between [1] and [N]. *)
Theorem shors_algorithm_nontrivial (N : Z) (use_simulator : bool)
    (max_attempts : Z) (gen gen' : rng) (l : list Z) (HN : 3 <= N)
    (Hrun : shors_algorithm float_log2 float_root quantum_period_finding
              N use_simulator max_attempts gen
            = Ret (Some l, gen')) :
  product l = N /\
  Forall (fun d => 1 < Z.abs d < N) l /\
  (2 <= List.length l)%nat.
Proof.
  unfold shors_algorithm in Hrun.
  destruct (Z.ltb_spec N 2) as [?|_]; [lia|].
  destruct (Z.eqb_spec (N mod 2) 0) as [Hev|Hodd].
  - injection Hrun as <- _.
    apply (even_split_nontrivial N HN Hev).
  - destruct (is_power float_log2 float_root N) as [[[base exp]|]| |] eqn:Hp;
      cbn [res_bind] in Hrun; try discriminate.
    + injection Hrun as <- _.
      apply (power_split_nontrivial float_log2 float_root N base exp HN Hp).
    + destruct (for_loop (range 0 max_attempts) _ gen)
        as [[gen1|[l1 gen1]]| |] eqn:Hl;
        cbn [res_bind] in Hrun; try discriminate.
      injection Hrun as <- <-.
      destruct (shors_loop_sound N use_simulator HN _ _ _ _ Hl) as (E1 & E2 & E3).
      split; [exact E1|]. split; [exact E2 | lia].
Qed.

End QuantumProperties.

Lemma shors_algorithm_nontrivial_witness :
  product [5; 3] = 15 /\
  Forall (fun d => 1 < Z.abs d < 15) [5; 3] /\
  (2 <= List.length [5; 3]%Z)%nat.
Proof.
  eapply (shors_algorithm_nontrivial exact_log2 exact_root
            (fun _ _ _ _ _ => Ret (Some 4%N)) 15 true 10 (const_rng 5 0)).
  - lia.
  - vm_compute. reflexivity.
Defined.

(** * [comparison.py]: the runner on the suite's own algorithms *)

(** X20.  Run on [trial_division], [benchmark_algorithm] always returns a
    result and prints no error; the result is a success exactly for
    [number >= 2], and then [verify_factors()] holds and all its factors are
    prime; below 2 it is a failure with no factors. *)
Theorem benchmark_trial_division (num : Z) (name : string) (t0 t1 : Q) :
  exists r : FactorizationResult,
    benchmark_algorithm trial_division_algorithm num name t0 t1 = Ret (r, []) /\
    (success r = true <-> 2 <= num) /\
    (2 <= num -> verify_factors r = true /\ Forall Z.prime (factors r)) /\
    (num < 2 -> factors r = []).
Proof.
  pose proof (benchmark_algorithm_cases trial_division_algorithm num name t0 t1)
    as Hc.
  unfold trial_division_algorithm in Hc.
  destruct (Z_lt_le_dec num 2) as [Hlt|Hge].
  - rewrite trial_division_below_two in Hc by assumption.
    cbn [res_bind nonempty_result] in Hc.
    unfold trial_division_algorithm at 1. rewrite Hc.
    eexists. split; [reflexivity|]. cbn [new_result success factors].
    split; [split; [discriminate | lia]|]. split; [lia | reflexivity].
  - destruct (trial_division_factors num Hge) as (l & Hl & Hp & Hprime & _).
    rewrite Hl in Hc. cbn [res_bind] in Hc.
    assert (Hne : nonempty_result (Some l) = true).
    { apply nonempty_result_spec. destruct l as [|f l'].
      - rewrite product_nil in Hp. lia.
      - eauto. }
    rewrite Hne in Hc. unfold trial_division_algorithm at 1. rewrite Hc.
    eexists. split; [reflexivity|]. cbn [new_result success factors].
    split; [split; [lia | reflexivity]|]. split; [|lia].
    intros _. split; [|exact Hprime].
    apply verify_factors_spec. cbn [new_result factors number].
    split; [|exact Hp]. intros ->. rewrite product_nil in Hp. lia.
Qed.

Lemma fermat_factorization_outcome (n max_iterations : Z) :
  (n < 0 /\ n mod 2 <> 0 ->
   fermat_factorization n max_iterations = Exn "math domain error"%string) /\
  (~ (n < 0 /\ n mod 2 <> 0) ->
   exists r, fermat_factorization n max_iterations = Ret r).
Proof.
  split.
  - intros [Hn Hodd]. unfold fermat_factorization, math_ceil_sqrt.
    destruct (Z.eqb_spec (n mod 2) 0) as [?|_]; [contradiction|].
    destruct (Z.ltb_spec n 0) as [_|?]; [|lia].
    reflexivity.
  - intros Hnot. destruct (Z.eq_dec (n mod 2) 0) as [Hev|Hodd].
    + unfold fermat_factorization. rewrite Hev. eexists. reflexivity.
    + assert (Hn : 0 <= n) by lia.
      destruct (fermat_factorization_odd n max_iterations Hn Hodd)
        as (a0 & r & _ & Hr & _).
      exists r. exact Hr.
Qed.

(** X21.  Run on the Fermat wrapper with a number below [2^52], where the
    double square roots are the exact ones, [benchmark_algorithm] returns a
    result.  On an odd negative number the wrapped call raises: the result
    is a failure and the one line printed carries the message of the
    exception; on every other number nothing is printed.  A success holds
    the two members of the pair, and [verify_factors()] holds for it. *)
Theorem benchmark_fermat (num : Z) (name : string) (t0 t1 : Q)
    (Hrange : num < 2 ^ 52) :
  exists (r : FactorizationResult) (out : list string),
    benchmark_algorithm fermat_factorization_wrapper num name t0 t1
      = Ret (r, out) /\
    (num < 0 /\ num mod 2 <> 0 ->
     success r = false /\
     exists e : exn,
       fermat_factorization num 100000 = Exn e /\
       out = [("Error in " ++ name ++ ": " ++ e)%string]) /\
    (~ (num < 0 /\ num mod 2 <> 0) -> out = []) /\
    (success r = true ->
     verify_factors r = true /\ List.length (factors r) = 2%nat).
Proof.
  pose proof (benchmark_algorithm_cases fermat_factorization_wrapper num name
                t0 t1) as Hc.
  destruct (fermat_factorization_outcome num 100000) as [Hraise Hret].
  destruct (Z_lt_le_dec num 0) as [Hneg|Hpos];
    [destruct (Z.eq_dec (num mod 2) 0) as [Hev|Hodd]|].
  3:{ destruct (Hret ltac:(lia)) as [r0 Hr0].
      unfold fermat_factorization_wrapper in Hc at 1. rewrite Hr0 in Hc.
      cbn [res_bind] in Hc.
      destruct r0 as [[p q]|]; cbn [nonempty_result List.length] in Hc;
        rewrite Hc; eexists; eexists; (split; [reflexivity|]);
        cbn [new_result success factors].
      - split; [lia|]. split; [reflexivity|]. intros _.
        split; [|reflexivity].
        apply verify_factors_spec. cbn [new_result factors number].
        split; [discriminate|].
        rewrite !product_cons, product_nil.
        pose proof (fermat_factorization_product num 100000 p q Hr0). lia.
      - split; [lia|]. split; [reflexivity | discriminate]. }
  - destruct (Hret ltac:(tauto)) as [r0 Hr0].
    unfold fermat_factorization_wrapper in Hc at 1. rewrite Hr0 in Hc.
    cbn [res_bind] in Hc.
    destruct r0 as [[p q]|]; cbn [nonempty_result List.length] in Hc;
      rewrite Hc; eexists; eexists; (split; [reflexivity|]);
      cbn [new_result success factors].
    + split; [tauto|]. split; [reflexivity|]. intros _.
      split; [|reflexivity].
      apply verify_factors_spec. cbn [new_result factors number].
      split; [discriminate|].
      rewrite !product_cons, product_nil.
      pose proof (fermat_factorization_product num 100000 p q Hr0). lia.
    + split; [tauto|]. split; [reflexivity | discriminate].
  - unfold fermat_factorization_wrapper in Hc at 1.
    rewrite (Hraise (conj Hneg Hodd)) in Hc. cbn [res_bind] in Hc.
    rewrite Hc. eexists. eexists. split; [reflexivity|].
    cbn [new_result success factors].
    split.
    { intros _. split; [reflexivity|].
      exists "math domain error"%string.
      split; [exact (Hraise (conj Hneg Hodd)) | reflexivity]. }
    split; [intros H; exfalso; apply H; split; assumption | discriminate].
Qed.

Lemma benchmark_fermat_witness :
  exists (r : FactorizationResult) (out : list string),
    benchmark_algorithm fermat_factorization_wrapper 77 "Fermat" 0 1
      = Ret (r, out) /\
    (77 < 0 /\ 77 mod 2 <> 0 ->
     success r = false /\
     exists e : exn,
       fermat_factorization 77 100000 = Exn e /\
       out = [("Error in " ++ "Fermat" ++ ": " ++ e)%string]) /\
    (~ (77 < 0 /\ 77 mod 2 <> 0) -> out = []) /\
    (success r = true ->
     verify_factors r = true /\ List.length (factors r) = 2%nat).
Proof. apply (benchmark_fermat 77 "Fermat" 0 1). reflexivity. Defined.

(** X22.  Run on [pollard_rho_factorize] with a number below [2^1023]:
    when the wrapped call returns a list, [benchmark_algorithm] returns a
    result that holds this list and prints nothing; the result is a success
    exactly for [number >= 2], and [verify_factors()] holds for every
    success. *)
Theorem benchmark_pollard_rho (depth : nat) (g g' : rng) (num : Z)
    (name : string) (t0 t1 : Q) (l : list Z)
    (Hrange : num < 2 ^ 1023)
    (Hcall : pollard_rho_factorize depth num g = Ret (l, g')) :
  exists r : FactorizationResult,
    benchmark_algorithm (pollard_rho_algorithm depth g) num name t0 t1
      = Ret (r, []) /\
    factors r = l /\
    (success r = true <-> 2 <= num) /\
    (success r = true -> verify_factors r = true).
Proof.
  pose proof (benchmark_algorithm_cases (pollard_rho_algorithm depth g) num
                name t0 t1) as Hc.
  unfold pollard_rho_algorithm in Hc at 1.
  rewrite Hcall in Hc. cbn [res_bind] in Hc.
  destruct (Z_lt_le_dec num 2) as [Hlt|Hge].
  - destruct depth as [|depth]; [discriminate|].
    rewrite pollard_rho_factorize_below_two in Hcall by assumption.
    injection Hcall as <- _. cbn [nonempty_result] in Hc.
    rewrite Hc. eexists. split; [reflexivity|].
    cbn [new_result success factors].
    split; [reflexivity|].
    split; [split; [discriminate | lia] | discriminate].
  - assert (H1 : 1 <= num) by lia.
    destruct (pollard_rho_factorize_sound depth num g g' l H1 Hcall)
      as [Hprod _].
    assert (Hne : nonempty_result (Some l) = true).
    { apply nonempty_result_spec. destruct l as [|f l'].
      - rewrite product_nil in Hprod. lia.
      - eauto. }
    rewrite Hne in Hc. rewrite Hc. eexists. split; [reflexivity|].
    cbn [new_result success factors].
    split; [reflexivity|]. split; [split; [lia | reflexivity]|].
    intros _. apply verify_factors_spec. cbn [new_result factors number].
    split; [|exact Hprod]. intros ->. rewrite product_nil in Hprod. lia.
Qed.

Lemma benchmark_pollard_rho_witness :
  exists r : FactorizationResult,
    benchmark_algorithm (pollard_rho_algorithm 20 (const_rng 0 0)) 1000
      "Pollard's Rho" 0 1 = Ret (r, []) /\
    factors r = [2; 2; 2; 5; 5; 5] /\
    (success r = true <-> 2 <= 1000) /\
    (success r = true -> verify_factors r = true).
Proof.
  eapply (benchmark_pollard_rho 20 (const_rng 0 0) _ 1000 "Pollard's Rho" 0 1
            [2; 2; 2; 5; 5; 5]).
  - reflexivity.
  - vm_compute. reflexivity.
Defined.
